(** * Migration Visualizer front end: the session engine, embedded and verified

    The development follows the JavaScript sources of the front end:
    - [utils/csvParser]                 ([parseCSV], the tabular decoder),
    - [components/DocumentSidebar.jsx]  (the evidence locator),
    - [App.jsx]                         (progress folding, stream de-framing,
                                         iteration store, reference resolver).

    JavaScript strings are sequences of UTF-16 code units.  They are modelled
    as lists of [ascii], i.e. code units below 256; every character the code
    tests for (quote, comma, colon, newline, dot, letters, digits, underscore)
    lies in that range.  JavaScript objects used as maps are [gmap]s. *)

From Stdlib Require Import Ascii String ZArith Lia.
From stdpp Require Import base list sorting gmap strings.

Abbreviation jsstring := (list ascii).

(** A string literal of the source, as a list of code units. *)
Definition str (s : string) : jsstring := list_ascii_of_string s.

(** ** Primitives of the JavaScript string and array library *)

Module Js.

Definition DQUOTE : ascii := "034"%char.
Definition COMMA : ascii := ","%char.
Definition COLON : ascii := ":"%char.
Definition DOT : ascii := "."%char.
Definition NEWLINE : ascii := "010"%char.

(** [WhiteSpace] and [LineTerminator] code units below 256:
    TAB, LF, VT, FF, CR, SP and NBSP. *)
Definition isWhiteSpace (c : ascii) : bool :=
  match N_of_ascii c with
  | 9 | 10 | 11 | 12 | 13 | 32 | 160 => true
  | _ => false
  end%N.

Definition isDigit (c : ascii) : bool :=
  let n := N_of_ascii c in ((48 <=? n) && (n <=? 57))%N.

Definition isUpper (c : ascii) : bool :=
  let n := N_of_ascii c in ((65 <=? n) && (n <=? 90))%N.

Definition isLower (c : ascii) : bool :=
  let n := N_of_ascii c in ((97 <=? n) && (n <=? 122))%N.

(** The class [[a-zA-Z0-9]]. *)
Definition isAlnum (c : ascii) : bool := isLower c || isUpper c || isDigit c.

(** The class [[a-zA-Z0-9_]], which is also [\w]. *)
Definition isWordChar (c : ascii) : bool :=
  isAlnum c || Ascii.eqb c "_"%char.

(** [Canonicalize] of a regular expression with the [i] flag and without
    the [u] flag: the code unit is upper-cased when its upper case is a
    single code unit.  Below 256 this maps a-z and the accented lower-case
    letters 224..254 (but not the division sign 247) 32 places down. *)
Definition canonicalize (c : ascii) : ascii :=
  let n := N_of_ascii c in
  if isLower c || ((224 <=? n) && (n <=? 254) && negb (n =? 247))%N
  then ascii_of_N (n - 32) else c.

(** [String.prototype.toLowerCase], one code unit at a time. *)
Definition lowerChar (c : ascii) : ascii :=
  let n := N_of_ascii c in
  if isUpper c || ((192 <=? n) && (n <=? 222) && negb (n =? 215))%N
  then ascii_of_N (n + 32) else c.

Definition toLowerCase (s : jsstring) : jsstring := lowerChar <$> s.

Fixpoint trimStart (s : jsstring) : jsstring :=
  match s with
  | c :: s' => if isWhiteSpace c then trimStart s' else s
  | [] => []
  end.

Definition trimEnd (s : jsstring) : jsstring :=
  reverse (trimStart (reverse s)).

Definition trim (s : jsstring) : jsstring := trimEnd (trimStart s).

(** [s.startsWith(p)]. *)
Fixpoint startsWith (s p : jsstring) {struct p} : bool :=
  match p, s with
  | [], _ => true
  | c :: p', d :: s' => Ascii.eqb c d && startsWith s' p'
  | _ :: _, [] => false
  end.

(** [s.endsWith(p)]. *)
Definition endsWith (s p : jsstring) : bool :=
  startsWith (reverse s) (reverse p).

(** [s.substring(a, b)]: both indices are clamped to the length and
    swapped when [a > b]. *)
Definition substring (s : jsstring) (a b : nat) : jsstring :=
  let a' := a `min` length s in
  let b' := b `min` length s in
  take (a' `max` b' - a' `min` b') (drop (a' `min` b') s).

(** [s.substring(a)]. *)
Definition substringFrom (s : jsstring) (a : nat) : jsstring := drop a s.

(** [s.slice(a)] for a non-negative [a]. *)
Definition sliceFrom (s : jsstring) (a : nat) : jsstring := drop a s.

(** [s.indexOf(sub)]; [None] stands for -1. *)
Fixpoint indexOf (s sub : jsstring) : option nat :=
  if startsWith s sub then Some 0
  else match s with
       | [] => None
       | _ :: s' => S <$> indexOf s' sub
       end.

(** [s.includes(sub)]. *)
Definition includes (s sub : jsstring) : bool :=
  match indexOf s sub with Some _ => true | None => false end.

(** Puts a code unit in front of the first piece. *)
Definition consHead (c : ascii) (pieces : list jsstring) : list jsstring :=
  match pieces with
  | p :: ps => (c :: p) :: ps
  | [] => [[c]]
  end.

(** [s.split(sep)] with a string separator: the occurrences of [sep] are
    taken from left to right and do not overlap.  [skip] counts the code
    units of a separator that remain to be passed over. *)
Fixpoint split_go (sep : jsstring) (skip : nat) (s : jsstring)
  : list jsstring :=
  match s with
  | [] => [[]]
  | c :: s' =>
      match skip with
      | S k => split_go sep k s'
      | O => if startsWith s sep
             then [] :: split_go sep (length sep - 1) s'
             else consHead c (split_go sep 0 s')
      end
  end.

Definition split (s sep : jsstring) : list jsstring :=
  match sep with
  | [] => (λ c, [c]) <$> s
  | _ :: _ => split_go sep 0 s
  end.

(** [arr.join(sep)]. *)
Fixpoint join (sep : jsstring) (l : list jsstring) : jsstring :=
  match l with
  | [] => []
  | [x] => x
  | x :: l' => x ++ sep ++ join sep l'
  end.

(** [arr.pop()] on an array of strings: the removed last element and the
    array that stays.  [split] never returns an empty array, so the
    [undefined] of an empty array is not reached; it is read as the empty
    string. *)
Definition pop (l : list jsstring) : jsstring * list jsstring :=
  (default [] (last l), removelast l).

(** [s.replace] of the global pattern made of two double quotes by one
    double quote: every pair of quotes, from left to right, becomes one
    quote. *)
Fixpoint replaceDoubledQuotes (s : jsstring) : jsstring :=
  match s with
  | c :: s' =>
      match s' with
      | d :: s'' =>
          if Ascii.eqb c DQUOTE && Ascii.eqb d DQUOTE
          then DQUOTE :: replaceDoubledQuotes s''
          else c :: replaceDoubledQuotes s'
      | [] => [c]
      end
  | [] => []
  end.

End Js.

(** ** Tabular decoder ([utils/csvParser], [parseCSV]) *)

(** A decoded table.  A row is the object built by [row[h] = ...]; the
    finite map holds its own properties, from column name to cell, and the
    read [row[col]] is [getProperty] below.  (The one key JavaScript treats
    specially on assignment, [__proto__], is outside the model.) *)
Record TabularDataset := mkDataset {
  columns : list jsstring;
  data : list (gmap jsstring jsstring)
}.

(** The quote handling applied to every field: when the field both starts
    and ends with a double quote, it becomes
    [field.substring(1, field.length - 1)] with doubled quotes replaced. *)
Definition unquote (field : jsstring) : jsstring :=
  if Js.startsWith field [Js.DQUOTE] && Js.endsWith field [Js.DQUOTE]
  then Js.replaceDoubledQuotes (Js.substring field 1 (length field - 1))
  else field.

(** The loop variables of [parseLine]: [result], [start] and [inQuotes]. *)
Record LineState := mkLineState {
  result : list jsstring;
  start : nat;
  inQuotes : bool
}.

(** One turn of [for (let i = 0; i < line.length; i++)]. *)
Definition parseLine_step (line : jsstring) (st : LineState) (i : nat)
  : LineState :=
  match line !! i with
  | Some c =>
      if Ascii.eqb c Js.DQUOTE
      then mkLineState (result st) (start st) (negb (inQuotes st))
      else if Ascii.eqb c Js.COMMA && negb (inQuotes st)
      then mkLineState
             (result st ++ [unquote (Js.substring line (start st) i)])
             (i + 1) (inQuotes st)
      else st
  | None => st
  end.

Definition parseLine (line : jsstring) : list jsstring :=
  let st := foldl (parseLine_step line) (mkLineState [] 0 false)
                  (seq 0 (length line)) in
  result st ++ [unquote (Js.substringFrom line (start st))].

(** [headers.forEach((h, i) => { row[h] = values[i] || EMPTY; })] on
    [row = {}], where EMPTY is the empty string: a missing or empty value
    gives the empty cell. *)
Definition makeRow (headers values : list jsstring) : gmap jsstring jsstring :=
  foldl (λ row '(i, h), <[h := default [] (values !! i)]> row) ∅
        (imap pair headers).

Definition emptyDataset : TabularDataset := mkDataset [] [].

Definition parseCSV (csvText : jsstring) : TabularDataset :=
  match csvText with
  | [] => emptyDataset
  | _ :: _ =>
      let lines :=
        filter (λ l, Js.trim l ≠ []) (Js.split csvText [Js.NEWLINE]) in
      match lines with
      | [] => emptyDataset
      | header :: rest =>
          let headers := parseLine header in
          mkDataset headers (map (λ line, makeRow headers (parseLine line)) rest)
      end
  end.

(** ** Regular expressions

    The patterns of the sources are all sequences of quantified character
    classes, possibly anchored at the end of the input.  [RegExp] holds such
    a sequence; matching is the backtracking of the language: every
    quantifier is greedy and gives back one code unit at a time. *)

Inductive CharClass :=
  | ClassLit (ignoreCase : bool) (w : ascii)  (* one literal code unit *)
  | ClassJunk                                 (* [[\W_]] *)
  | ClassAlnum.                               (* [[a-zA-Z0-9]] *)

(** Does the class take the code unit?  With the [i] flag a literal is
    compared after canonicalization; [[\W_]] is everything but letters and
    digits, with or without the flag. *)
Definition accepts (cl : CharClass) (c : ascii) : bool :=
  match cl with
  | ClassLit true w => Ascii.eqb (Js.canonicalize c) (Js.canonicalize w)
  | ClassLit false w => Ascii.eqb c w
  | ClassJunk => negb (Js.isWordChar c) || Ascii.eqb c "_"%char
  | ClassAlnum => Js.isAlnum c
  end.

Record Atom := mkAtom {
  class : CharClass;
  atLeast : nat;
  atMost : option nat
}.

Record RegExp := mkRegExp {
  atoms : list Atom;
  anchoredEnd : bool
}.

Definition litAtom (ignoreCase : bool) (w : ascii) : Atom :=
  mkAtom (ClassLit ignoreCase w) 1 (Some 1).

(** The class [[\W_]] under [+]. *)
Definition junkAtom : Atom := mkAtom ClassJunk 1 None.

(** How many leading code units of [s] the class takes, at most [limit]. *)
Fixpoint runLength (p : ascii → bool) (limit : option nat) (s : jsstring)
  : nat :=
  match s with
  | c :: s' =>
      match limit with
      | Some 0 => 0
      | Some (S n) => if p c then S (runLength p (Some n) s') else 0
      | None => if p c then S (runLength p None s') else 0
      end
  | [] => 0
  end.

(** Tries the continuation after [j], [j - 1], ..., [lo] code units. *)
Fixpoint backtrack (cont : jsstring → option nat) (s : jsstring)
    (lo j : nat) : option nat :=
  if j <? lo then None
  else match cont (drop j s) with
       | Some n => Some (j + n)
       | None => match j with
                 | S j' => backtrack cont s lo j'
                 | O => None
                 end
       end.

(** Matches the atoms at the start of [s]; the length of the match. *)
Fixpoint matchAtoms (ats : list Atom) (anchored : bool) (s : jsstring)
  : option nat :=
  match ats with
  | [] => if anchored
          then match s with [] => Some 0 | _ :: _ => None end
          else Some 0
  | a :: rest =>
      backtrack (matchAtoms rest anchored) s (atLeast a)
                (runLength (accepts (class a)) (atMost a) s)
  end.

Definition matchHere (re : RegExp) (s : jsstring) : option nat :=
  matchAtoms (atoms re) (anchoredEnd re) s.

(** [re.test(s)] and the truth value of [s.match(re)] for a pattern without
    the [g] flag: is there a match at some position? *)
Fixpoint regexTest (re : RegExp) (s : jsstring) : bool :=
  match matchHere re s with
  | Some _ => true
  | None => match s with
            | _ :: s' => regexTest re s'
            | [] => false
            end
  end.

(** A located text region: start and end offsets. *)
Definition span : Type := nat * nat.

(** All matches of a pattern with the [g] flag, as repeated [exec] finds
    them: leftmost first, the search resuming where the match ended.  An
    empty match is not reported. *)
Fixpoint matchAll_go (re : RegExp) (skip pos : nat) (s : jsstring)
  : list span :=
  match s with
  | [] => []
  | _ :: s' =>
      match skip with
      | S k => matchAll_go re k (S pos) s'
      | O => match matchHere re s with
             | Some (S n) => (pos, pos + S n) :: matchAll_go re n (S pos) s'
             | _ => matchAll_go re 0 (S pos) s'
             end
      end
  end.

Definition matchAll (re : RegExp) (s : jsstring) : list span :=
  matchAll_go re 0 0 s.

(** The characters with a meaning in a pattern, which [escapeRegExp]
    escapes. *)
Definition isSpecial (c : ascii) : bool :=
  bool_decide (c ∈ str ".*+?^${}()|[]\").

(** [new RegExp(pattern, 'gi')] for the patterns [getFlexibleRegex] builds:
    a backslash makes the next code unit literal, the text [[\W_]+] is the
    junk class under [+], a code unit that is not special stands for itself.
    Any other syntax is refused ([None], the [catch] branch). *)
Fixpoint compilePattern (p : jsstring) : option (list Atom) :=
  match p with
  | [] => Some []
  | c :: p1 =>
      if Ascii.eqb c "\"%char then
        match p1 with
        | d :: p2 =>
            if isSpecial d
            then (λ r, litAtom true d :: r) <$> compilePattern p2
            else None
        | [] => None
        end
      else if Ascii.eqb c "["%char then
        match p1 with
        | c1 :: c2 :: c3 :: c4 :: c5 :: p6 =>
            if bool_decide ([c1; c2; c3; c4; c5] = str "\W_]+")
            then (λ r, junkAtom :: r) <$> compilePattern p6
            else None
        | _ => None
        end
      else if isSpecial c then None
      else (λ r, litAtom true c :: r) <$> compilePattern p1
  end.

Definition newRegExp_gi (pattern : jsstring) : option RegExp :=
  (λ ats, mkRegExp ats false) <$> compilePattern pattern.

(** ** Evidence locator ([components/DocumentSidebar.jsx]) *)

(** [string.replace(/[.*+?^${}()|[\]\\]/g, '\\$&')]. *)
Definition escapeRegExp (s : jsstring) : jsstring :=
  s ≫= (λ c, if isSpecial c then ["\"%char; c] else [c]).

(** [term.split(/[^a-zA-Z0-9_]+/)]: the pieces between the maximal runs of
    code units outside the word class; [inRun] says that the previous code
    unit already belonged to a run. *)
Fixpoint splitNonWord_go (inRun : bool) (s : jsstring) : list jsstring :=
  match s with
  | [] => [[]]
  | c :: s' =>
      if Js.isWordChar c then Js.consHead c (splitNonWord_go false s')
      else if inRun then splitNonWord_go true s'
      else [] :: splitNonWord_go true s'
  end.

Definition splitNonWord (s : jsstring) : list jsstring :=
  splitNonWord_go false s.

Definition getFlexibleRegex (term : jsstring) : option RegExp :=
  if length term <? 2 then None
  else
    let words := filter (λ w, 0 < length w) (splitNonWord term) in
    match words with
    | [] => None
    | _ :: _ =>
        let escapedWords := map escapeRegExp words in
        let separator := str "[\W_]+" in
        let pattern := Js.join separator escapedWords in
        newRegExp_gi pattern
    end.

(** [isHtmlDoc]: the trimmed, lower-cased content starts like an HTML
    document. *)
Definition isHtmlDoc (content : jsstring) : bool :=
  match content with
  | [] => false
  | _ :: _ =>
      Js.startsWith (Js.toLowerCase (Js.trim content)) (str "<!doctype")
      || Js.startsWith (Js.toLowerCase (Js.trim content)) (str "<html")
  end.

(** The three strategies of the highlighting effect. *)
Inductive Strategy := ExactMatch | WordSequence | LooseFallback.

Global Instance Strategy_eq_dec : EqDecision Strategy.
Proof. solve_decision. Defined.

(** How the evaluation of an expression ends: with a value, or with an
    exception that is thrown. *)
Inductive Completion (A : Type) :=
  | Normal (value : A)
  | Throw (error : jsstring).

Arguments Normal {A} value.
Arguments Throw {A} error.

(** The identifier [getPreviewRegex] occurs once in the component, in the
    call of the third strategy.  The module neither declares nor imports it,
    and it is no global of the language: evaluating the call throws a
    [ReferenceError], whatever the argument. *)
Definition getPreviewRegex (highlight : jsstring)
  : Completion (option RegExp) :=
  Throw (str "ReferenceError: getPreviewRegex is not defined").

Section Locator.

(** The two entry points of the marking library, as functions from the text
    of the rendered document to the marked spans: [instance.mark(phrase)]
    and [instance.markRegExp(regex)].  The count handed to [done] is the
    number of spans. *)
Variable mark : jsstring → jsstring → list span.
Variable markRegExp : RegExp → jsstring → list span.

(** The highlighting effect with the sidebar open: the strategies that were
    entered, in order, and the spans that are marked in the end.  The text
    the library searches is the one shown for [content].  The third
    strategy is entered only inside the [done] callback of the second one;
    an exception thrown there ends the effect with nothing more marked. *)
Definition locate (highlight content : jsstring)
  : list Strategy * list span :=
  match highlight with
  | [] => ([], [])
  | _ :: _ =>
      if isHtmlDoc content then ([], [])
      else
        let total := mark highlight content in
        if 0 <? length total then ([ExactMatch], total)
        else
          match getFlexibleRegex highlight with
          | None => ([ExactMatch], [])
          | Some regex =>
              let totalRegex := markRegExp regex content in
              if 0 <? length totalRegex
              then ([ExactMatch; WordSequence], totalRegex)
              else
                match getPreviewRegex highlight with
                | Normal (Some simpleRegex) =>
                    ([ExactMatch; WordSequence; LooseFallback],
                     markRegExp simpleRegex content)
                | Normal None =>
                    ([ExactMatch; WordSequence; LooseFallback], [])
                | Throw _ =>
                    ([ExactMatch; WordSequence; LooseFallback], [])
                end
          end
  end.

End Locator.

(** Does [s] start with [p], case ignored? *)
Definition startsWithIgnoreCase (s p : jsstring) : bool :=
  Js.startsWith (Js.canonicalize <$> s) (Js.canonicalize <$> p).

(** Modelled from the spec: the exact-match call [instance.mark(highlight)]
    of the marking library, which is not part of the repository.  Strategy 1
    searches the phrase verbatim inside the body, ignoring case; a match is
    followed by the search for the next one after it. *)
Fixpoint markExact_go (phrase : jsstring) (skip pos : nat) (s : jsstring)
  : list span :=
  match s with
  | [] => []
  | _ :: s' =>
      match skip with
      | S k => markExact_go phrase k (S pos) s'
      | O => if startsWithIgnoreCase s phrase
             then (pos, pos + length phrase)
                  :: markExact_go phrase (length phrase - 1) (S pos) s'
             else markExact_go phrase 0 (S pos) s'
      end
  end.

(** Modelled from the spec: [instance.mark(phrase)] on the text [body]; the
    empty phrase marks nothing. *)
Definition markExact (phrase body : jsstring) : list span :=
  match phrase with
  | [] => []
  | _ :: _ => markExact_go phrase 0 0 body
  end.

(** Modelled from the spec: the call [instance.markRegExp(regex)] of the
    marking library, which marks every match of the global pattern. *)
Definition markRegExpAll (regex : RegExp) (body : jsstring) : list span :=
  matchAll regex body.

(** ** Stage statuses ([App.jsx], [ProgressVisualizer]) *)

Inductive StageStatus := waiting | active | completed.

Global Instance StageStatus_eq_dec : EqDecision StageStatus.
Proof. solve_decision. Defined.

(** The order waiting < active < completed. *)
Definition statusRank (s : StageStatus) : nat :=
  match s with waiting => 0 | active => 1 | completed => 2 end.

(** The [status] fields of [newState]. *)
Record Stages := mkStages {
  converting : StageStatus;
  analyzing : StageStatus;
  processing : StageStatus
}.

Definition initialStages : Stages := mkStages waiting waiting waiting.

(** The body of [logs.forEach(log => ...)], as far as it assigns to
    [newState]; the assignments to [newAgentState] touch no stage. *)
Definition progressLog (newState : Stages) (log : jsstring) : Stages :=
  let s1 :=
    if Js.includes log (str "Converting documents")
    then mkStages active (analyzing newState) (processing newState)
    else newState in
  let s2 :=
    if Js.includes log (str "Converted")
    then mkStages completed (analyzing s1) (processing s1)
    else s1 in
  let s3 :=
    if Js.includes log (str "Analyzing content")
    then mkStages (converting s2) active (processing s2)
    else s2 in
  let s4 :=
    if Js.includes log (str "Content fits")
       || Js.includes log (str "Content too large")
    then mkStages (converting s3) completed (processing s3)
    else s3 in
  let s5 :=
    if Js.includes log (str "Calling LLM")
       || Js.includes log (str "Starting iterative agent")
    then mkStages (converting s4) (analyzing s4) active
    else s4 in
  if Js.includes log (str "process completed")
     || Js.includes log (str "Response saved")
  then mkStages (converting s5) (analyzing s5) completed
  else s5.

(** The effect on [logs]: a fresh [newState], folded over all the logs. *)
Definition stagesOf (logs : list jsstring) : Stages :=
  foldl progressLog initialStages logs.

Inductive Stage := Converting | Analyzing | Processing.

Definition statusOf (st : Stages) (s : Stage) : StageStatus :=
  match s with
  | Converting => converting st
  | Analyzing => analyzing st
  | Processing => processing st
  end.

(** The markers that set a stage to [active], and to [completed]. *)
Definition startMarker (s : Stage) (log : jsstring) : bool :=
  match s with
  | Converting => Js.includes log (str "Converting documents")
  | Analyzing => Js.includes log (str "Analyzing content")
  | Processing => Js.includes log (str "Calling LLM")
                  || Js.includes log (str "Starting iterative agent")
  end.

Definition doneMarker (s : Stage) (log : jsstring) : bool :=
  match s with
  | Converting => Js.includes log (str "Converted")
  | Analyzing => Js.includes log (str "Content fits")
                 || Js.includes log (str "Content too large")
  | Processing => Js.includes log (str "process completed")
                  || Js.includes log (str "Response saved")
  end.

(** ** Session state and events ([App.jsx], [handleRun]) *)

(** An element of [iterationResults]. *)
Record IterationResult := mkIterationResult {
  iteration : Z;
  content : jsstring
}.

(** The value of [data] and [finalData]: a source and a target table. *)
Record MigrationData := mkMigrationData {
  source : TabularDataset;
  target : TabularDataset
}.

(** A parsed event, by its [type]; any other type is [EvOther].  The
    detailed agent state is kept as its text. *)
Inductive Event :=
  | EvProgress (message : jsstring)
  | EvUsage (tokens : Z)
  | EvAgentState (state : jsstring)
  | EvIterationComplete (iter : Z) (csv_content : jsstring)
  | EvResult (result_data : MigrationData)
  | EvError (message : jsstring)
  | EvOther.

(** The state variables of [App] that the event stream and the iteration
    selector write. *)
Record AppState := mkAppState {
  st_progress : list jsstring;
  st_totalTokens : Z;
  st_agentDetailedState : option jsstring;
  st_iterationResults : list IterationResult;
  st_data : option MigrationData;
  st_finalData : option MigrationData;
  st_error : option jsstring;
  st_selectedIteration : option Z
}.

(** The state after the resets at the top of [handleRun]. *)
Definition resetState : AppState :=
  mkAppState [] 0 None [] None None None None.

(** [newResults.sort((a, b) => a.iteration - b.iteration)]: the sort of the
    language is stable, and the stable arrangement is the one insertion
    from the right produces. *)
Fixpoint insertByIteration (x : IterationResult) (l : list IterationResult)
  : list IterationResult :=
  match l with
  | [] => [x]
  | y :: l' => if (iteration x <=? iteration y)%Z
               then x :: l
               else y :: insertByIteration x l'
  end.

Definition sortByIteration (l : list IterationResult)
  : list IterationResult :=
  foldr insertByIteration [] l.

(** The updater given to [setIterationResults]. *)
Definition recordIteration (prev : list IterationResult)
    (r : IterationResult) : list IterationResult :=
  sortByIteration (prev ++ [r]).

(** The dispatch on [event.type]. *)
Definition applyEvent (st : AppState) (event : Event) : AppState :=
  match event with
  | EvProgress message =>
      mkAppState (st_progress st ++ [message]) (st_totalTokens st)
        (st_agentDetailedState st) (st_iterationResults st) (st_data st)
        (st_finalData st) (st_error st) (st_selectedIteration st)
  | EvUsage tokens =>
      mkAppState (st_progress st) (st_totalTokens st + tokens)
        (st_agentDetailedState st) (st_iterationResults st) (st_data st)
        (st_finalData st) (st_error st) (st_selectedIteration st)
  | EvAgentState d =>
      mkAppState (st_progress st) (st_totalTokens st) (Some d)
        (st_iterationResults st) (st_data st) (st_finalData st)
        (st_error st) (st_selectedIteration st)
  | EvIterationComplete i c =>
      mkAppState (st_progress st) (st_totalTokens st)
        (st_agentDetailedState st)
        (recordIteration (st_iterationResults st) (mkIterationResult i c))
        (st_data st) (st_finalData st) (st_error st)
        (st_selectedIteration st)
  | EvResult d =>
      mkAppState (st_progress st) (st_totalTokens st)
        (st_agentDetailedState st) (st_iterationResults st) (Some d)
        (Some d) (st_error st) (st_selectedIteration st)
  | EvError message =>
      mkAppState (st_progress st) (st_totalTokens st)
        (st_agentDetailedState st) (st_iterationResults st) (st_data st)
        (st_finalData st) (Some message) (st_selectedIteration st)
  | EvOther => st
  end.

(** The store after a sequence of [iteration_complete] events. *)
Definition recordAll (rs : list IterationResult) : list IterationResult :=
  foldl recordIteration [] rs.

(** [iterationResults.find(r => r.iteration === iteration)]. *)
Definition findIteration (k : Z) (l : list IterationResult)
  : option IterationResult :=
  List.find (λ r, (iteration r =? k)%Z) l.

Section Stream.

(** [JSON.parse] followed by the reading of the event's fields; [None] when
    the parse throws. *)
Variable parseEvent : jsstring → option Event.

(** The body of [for (const line of lines)]. *)
Definition processLine (st : AppState) (line : jsstring) : AppState :=
  if Js.startsWith line (str "data: ")
  then match parseEvent (Js.sliceFrom line 6) with
       | Some event => applyEvent st event
       | None => st
       end
  else st.

(** The reading loop keeps the application state and [buffer]. *)
Record StreamState := mkStreamState {
  session : AppState;
  buffer : jsstring
}.

(** One turn of the reading loop on a decoded chunk. *)
Definition readChunk (s : StreamState) (chunk : jsstring) : StreamState :=
  let buffer0 := buffer s ++ chunk in
  let lines := Js.split buffer0 [Js.NEWLINE; Js.NEWLINE] in
  let '(buffer1, lines1) := Js.pop lines in
  mkStreamState (foldl processLine (session s) lines1) buffer1.

(** The records a turn hands to the loop over [lines]. *)
Definition framedBy (buf chunk : jsstring) : list jsstring :=
  snd (Js.pop (Js.split (buf ++ chunk) [Js.NEWLINE; Js.NEWLINE])).

(** All the records of a run, in the order they are processed. *)
Fixpoint framedRecords (buf : jsstring) (chunks : list jsstring)
  : list jsstring :=
  match chunks with
  | [] => []
  | chunk :: rest =>
      framedBy buf chunk
      ++ framedRecords
           (fst (Js.pop (Js.split (buf ++ chunk) [Js.NEWLINE; Js.NEWLINE])))
           rest
  end.

(** The reading loop of [handleRun] over the chunks of the response. *)
Definition readStream (chunks : list jsstring) : StreamState :=
  foldl readChunk (mkStreamState resetState []) chunks.

(** The events of a run: the records that carry the [data: ] prefix and
    parse. *)
Definition eventOfLine (line : jsstring) : option Event :=
  if Js.startsWith line (str "data: ")
  then parseEvent (Js.sliceFrom line 6)
  else None.

Definition parsedEvents (chunks : list jsstring) : list Event :=
  omap eventOfLine (framedRecords [] chunks).

End Stream.

(** ** Iteration selection and the table rows ([App.jsx]) *)

Definition withData (st : AppState) (sel : option Z)
    (d : option MigrationData) : AppState :=
  mkAppState (st_progress st) (st_totalTokens st) (st_agentDetailedState st)
    (st_iterationResults st) d (st_finalData st) (st_error st) sel.

(** [handleIterationSelect(iteration)]; [None] is [null]. *)
Definition handleIterationSelect (sel : option Z) (st : AppState)
  : AppState :=
  match sel with
  | None =>
      match st_finalData st with
      | Some fd => withData st sel (Some fd)
      | None => withData st sel (st_data st)
      end
  | Some k =>
      match findIteration k (st_iterationResults st), st_finalData st with
      | Some r, Some fd =>
          let parsed := parseCSV (content r) in
          withData st sel (Some (mkMigrationData (source fd) parsed))
      | _, _ => withData st sel (st_data st)
      end
  end.

(** The names of the members that every object inherits from
    [Object.prototype]. *)
Definition objectPrototypeMembers : list jsstring :=
  [str "constructor"; str "hasOwnProperty"; str "isPrototypeOf";
   str "propertyIsEnumerable"; str "toLocaleString"; str "toString";
   str "valueOf"; str "__proto__"; str "__defineGetter__";
   str "__defineSetter__"; str "__lookupGetter__"; str "__lookupSetter__"].

(** A cell of a table row, which is what a property read gives: the text
    of an own property, the member inherited under that name, or
    [undefined]. *)
Inductive cell :=
  | Undefined
  | Text (value : jsstring)
  | Inherited (member : jsstring).

(** [obj[key]] on a row object or on the literal [{}]: the own property
    when there is one, else the member of [Object.prototype] of that name,
    else [undefined]. *)
Definition getProperty (obj : gmap jsstring jsstring) (key : jsstring)
  : cell :=
  match obj !! key with
  | Some value => Text value
  | None => if bool_decide (key ∈ objectPrototypeMembers)
            then Inherited key else Undefined
  end.

(** [data.source.data.map((row, idx) => ...)] of the table-building effect;
    [targetRow] is [data.target.data[idx] || {}]. *)
Definition buildRow (d : MigrationData) (idx : nat)
    (row : gmap jsstring jsstring) : gmap jsstring cell :=
  let targetRow := default ∅ (data (target d) !! idx) in
  let obj1 :=
    foldl (λ obj col, <[str "source_" ++ col := getProperty row col]> obj) ∅
          (columns (source d)) in
  let obj2 :=
    foldl (λ obj col, <[str "target_" ++ col := getProperty targetRow col]>
                        obj)
          obj1 (columns (target d)) in
  <[str "__gap__" := Text []]> obj2.

Definition buildRows (d : MigrationData) : list (gmap jsstring cell) :=
  imap (buildRow d) (data (source d)).

(** ** Reference resolver ([App.jsx], the click on a Target Source cell) *)

(** The split of the cell value at [value.indexOf(':')]. *)
Definition resolve (value : jsstring) : jsstring * jsstring :=
  match Js.indexOf value [Js.COLON] with
  | Some firstColonIndex =>
      (Js.trim (Js.substring value 0 firstColonIndex),
       Js.trim (Js.substringFrom value (firstColonIndex + 1)))
  | None => (value, [])
  end.

(** The pattern [/\.[a-zA-Z0-9]{2,4}$/]. *)
Definition extensionRegex : RegExp :=
  mkRegExp [litAtom false Js.DOT; mkAtom ClassAlnum 2 (Some 4)] true.

(** The negation of the guard
    [!filename.match(/\.[a-zA-Z0-9]{2,4}$/) && filename.length > 20]. *)
Definition shapeValid (filename : jsstring) : bool :=
  negb (negb (regexTest extensionRegex filename) && (20 <? length filename)).

Inductive ViewOutcome :=
  | Ignored
  | InvalidFilenameAlert (filename : jsstring)
  | FetchDocument (filename context : jsstring).

(** [handleViewDocument(filename, context)] up to the request it sends. *)
Definition handleViewDocument (filename context : jsstring) : ViewOutcome :=
  if negb (regexTest extensionRegex filename) && (20 <? length filename)
  then InvalidFilenameAlert filename
  else FetchDocument filename context.

(** The click on the View button of a Target Source cell. *)
Definition targetSourceClick (value : jsstring) : ViewOutcome :=
  match value with
  | [] => Ignored
  | _ :: _ =>
      let '(filename, context) := resolve value in
      if negb (regexTest extensionRegex filename) && (20 <? length filename)
      then InvalidFilenameAlert filename
      else handleViewDocument filename context
  end.

(** [buffer] after the reading loop has gone through the chunks. *)
Fixpoint bufferAfter (buf : jsstring) (chunks : list jsstring) : jsstring :=
  match chunks with
  | [] => buf
  | chunk :: rest =>
      bufferAfter
        (fst (Js.pop (Js.split (buf ++ chunk) [Js.NEWLINE; Js.NEWLINE])))
        rest
  end.

(** ** Delimited text, in the words of the specification *)











(** The fields of a line before the quotes are taken off: the line cut at
    the commas that are outside quotes. *)
Fixpoint rawFields (inQ : bool) (s : jsstring) : list jsstring :=
  match s with
  | [] => [[]]
  | c :: s' =>
      if Ascii.eqb c Js.DQUOTE then Js.consHead c (rawFields (negb inQ) s')
      else if Ascii.eqb c Js.COMMA && negb inQ then [] :: rawFields inQ s'
      else Js.consHead c (rawFields inQ s')
  end.

(** Puts a text in front of the first piece. *)
Definition prependHead (l : jsstring) (pieces : list jsstring)
  : list jsstring :=
  match pieces with
  | p :: ps => (l ++ p) :: ps
  | [] => [l]
  end.





(** A session with a terminal result and three recorded iterations. *)
Definition exampleSource : TabularDataset :=
  mkDataset [str "id"]
            [{[str "id" := str "7"]}; {[str "id" := str "8"]}].

Definition exampleFinal : MigrationData :=
  mkMigrationData exampleSource
    (mkDataset [str "Target"]
               [{[str "Target" := str "x"]}; {[str "Target" := str "y"]}]).

Definition exampleStore : list IterationResult :=
  recordAll
    [mkIterationResult 1 (str "Target" ++ [Js.NEWLINE] ++ str "a");
     mkIterationResult 2 (str "Target" ++ [Js.NEWLINE] ++ str "b"
                          ++ [Js.NEWLINE] ++ str "c");
     mkIterationResult 3 (str "Target" ++ [Js.NEWLINE] ++ str "x"
                          ++ [Js.NEWLINE] ++ str "y")].

Definition exampleState : AppState :=
  mkAppState [] 0 None exampleStore (Some exampleFinal) (Some exampleFinal)
             None None.

(** ** Reference shapes, in the words of the specification *)

(** The identifier ends in an extension of 2 to 4 letters or digits after a
    dot; the dot is the last one, since no extension character is a dot. *)
Definition endsInShortExtension (identifier : jsstring) : Prop :=
  ∃ stem ext, identifier = stem ++ Js.DOT :: ext
              ∧ 2 ≤ length ext ≤ 4
              ∧ Forall (λ c, Js.isAlnum c = true) ext.

(** Ascending by iteration number, equal numbers allowed. *)
Definition ascending (l : list IterationResult) : Prop :=
  StronglySorted (λ a b, (iteration a ≤ iteration b)%Z) l.

(** ** Summaries of an event sequence *)

(** The sum of the increments of the usage events. *)
Definition usageTotal (events : list Event) : Z :=
  foldr (λ e acc, match e with EvUsage t => (t + acc)%Z | _ => acc end)
        0%Z events.

(** The messages of the progress events, in order. *)
Definition progressMessages (events : list Event) : list jsstring :=
  omap (λ e, match e with EvProgress m => Some m | _ => None end) events.

(** The snapshots of the iteration_complete events, in order. *)
Definition iterationSnapshots (events : list Event) : list IterationResult :=
  omap (λ e, match e with
             | EvIterationComplete i c => Some (mkIterationResult i c)
             | _ => None
             end) events.

(** The payloads of the result events, in order. *)
Definition resultPayloads (events : list Event) : list MigrationData :=
  omap (λ e, match e with EvResult d => Some d | _ => None end) events.

(** A text made of terminated records followed by a remainder: every
    record is followed by the blank line that ends it. *)
Definition terminated (records : list jsstring) (remainder : jsstring)
  : jsstring :=
  concat ((λ r, r ++ [Js.NEWLINE; Js.NEWLINE]) <$> records) ++ remainder.

(** The table [parseCSV] builds from the lines it keeps. *)
Definition tableOfLines (lines : list jsstring) : TabularDataset :=
  match lines with
  | [] => emptyDataset
  | header :: rest =>
      mkDataset (parseLine header)
                (map (λ line, makeRow (parseLine header) (parseLine line))
                     rest)
  end.

(** A log carries no marker of the stage. *)
Definition noMarker (s : Stage) (log : jsstring) : Prop :=
  startMarker s log = false ∧ doneMarker s log = false.

(** ** Token sequences, for the word-sequence strategy *)

(** The tokens of a phrase: the non-empty pieces of its split. *)
Definition tokensOf (term : jsstring) : list jsstring :=
  filter (λ w, 0 < length w) (splitNonWord term).

(** The pattern of a list of tokens: each token literally, case ignored,
    with the junk class under [+] between two tokens. *)
Fixpoint wordsPattern (words : list jsstring) : list Atom :=
  match words with
  | [] => []
  | w :: ws =>
      match ws with
      | [] => litAtom true <$> w
      | _ :: _ => (litAtom true <$> w) ++ junkAtom :: wordsPattern ws
      end
  end.

(** Two texts that differ in case only. *)
Definition sameIgnoringCase (a b : jsstring) : Prop :=
  Js.canonicalize <$> a = Js.canonicalize <$> b.

(** A text that shows the tokens in order, each in any case, with a
    non-empty run of characters other than letters and digits between two
    tokens. *)
Inductive tokenSequence : list jsstring → jsstring → Prop :=
  | tokenSequence_last (w w' : jsstring) :
      sameIgnoringCase w' w → tokenSequence [w] w'
  | tokenSequence_more (w w' junk : jsstring) (ws : list jsstring)
      (body : jsstring) :
      sameIgnoringCase w' w →
      junk ≠ [] →
      Forall (λ c, accepts ClassJunk c = true) junk →
      ws ≠ [] →
      tokenSequence ws body →
      tokenSequence (w :: ws) (w' ++ junk ++ body).

(** ** The other click handlers and cell formatters ([App.jsx],
    [components/CsvViewer.jsx]) *)

(** The click on a button of a Potential Matches cell, and both clicks of
    [CsvViewer], whose [onViewDocument] is [handleViewDocument]: the value
    is split like a Target Source value and handed over without a shape
    check of its own. *)
Definition potentialMatchClick (value : jsstring) : ViewOutcome :=
  match value with
  | [] => Ignored
  | _ :: _ =>
      let '(filename, context) := resolve value in
      handleViewDocument filename context
  end.

(** [m.replace(/^QUOTE|QUOTE$/g, EMPTY)]: a double quote at the very start
    goes, and a double quote at the very end goes, unless it is the one
    already taken at the start. *)
Definition stripTrailingQuote (m : jsstring) : jsstring :=
  if Js.endsWith m [Js.DQUOTE] then removelast m else m.

Definition stripQuotes (m : jsstring) : jsstring :=
  match m with
  | c :: r => if Ascii.eqb c Js.DQUOTE
              then match r with
                   | [] => []
                   | _ :: _ => stripTrailingQuote r
                   end
              else stripTrailingQuote m
  | [] => []
  end.

(** [trimmed.slice(1, -1)]. *)
Definition sliceInner (s : jsstring) : jsstring :=
  take (length s - 1 - 1) (drop 1 s).

Definition SEMICOLON : ascii := ";"%char.

(** The array [matches] of the Potential Matches formatter of [App.jsx]:
    one button is drawn per element; the empty cell and the empty list draw
    nothing. *)
Definition potentialMatches (value : jsstring) : list jsstring :=
  match value with
  | [] => []
  | _ :: _ =>
      let trimmed := Js.trim value in
      if Js.startsWith trimmed (str "[") && Js.endsWith trimmed (str "]")
      then
        let content := sliceInner trimmed in
        if 0 <? length content then
          if Js.includes content [Js.DQUOTE; SEMICOLON; Js.DQUOTE]
          then map stripQuotes
                   (Js.split content [Js.DQUOTE; SEMICOLON; Js.DQUOTE])
          else if Js.includes content [Js.DQUOTE; Js.COMMA; Js.DQUOTE]
          then map stripQuotes
                   (Js.split content [Js.DQUOTE; Js.COMMA; Js.DQUOTE])
          else [stripQuotes content]
        else []
      else [value]
  end.

(** [match.length > 30 ? match.substring(0, 27) + '...' : match]. *)
Definition displayLabel (m : jsstring) : jsstring :=
  if 30 <? length m then Js.substring m 0 27 ++ str "..." else m.

(** A text of white space only, and a text that neither starts nor ends
    with white space. *)
Definition whiteSpaceOnly (w : jsstring) : Prop :=
  Forall (λ c, Js.isWhiteSpace c = true) w.

Definition tight (s : jsstring) : Prop :=
  ∀ c, head s = Some c ∨ last s = Some c → Js.isWhiteSpace c = false.

(** A list of matches as the upstream process writes it: every match
    between double quotes, the matches separated by [delim], the whole
    between square brackets. *)
Definition encodeMatches (delim : ascii) (ms : list jsstring) : jsstring :=
  str "[" ++ [Js.DQUOTE] ++ Js.join [Js.DQUOTE; delim; Js.DQUOTE] ms
  ++ [Js.DQUOTE] ++ str "]".

(** The pieces of a written list between its separators: the last one
    still carries the closing quote. *)
Fixpoint closeLast (ms : list jsstring) : list jsstring :=
  match ms with
  | [] => []
  | m :: rest =>
      match rest with
      | [] => [m ++ [Js.DQUOTE]]
      | _ :: _ => m :: closeLast rest
      end
  end.

(** ** Upload batches and column visibility ([App.jsx]) *)

Definition BATCH_SIZE : nat := 50.

(** [Math.ceil(files.length / BATCH_SIZE)]; the quotient of two array
    lengths is exact enough in floating point for the ceiling to be the
    integer one. *)
Definition totalBatches (n : nat) : nat := (n + (BATCH_SIZE - 1)) / BATCH_SIZE.

(** [files.slice(start, end)] for [start <= end <= files.length]. *)
Definition sliceArray {A} (files : list A) (from to : nat) : list A :=
  take (to - from) (drop from files).

(** The batches the loop of [handleDocsUpload] builds, in order. *)
Definition uploadBatches {A} (files : list A) : list (list A) :=
  map (λ i, let start := i * BATCH_SIZE in
            let stop := (start + BATCH_SIZE) `min` length files in
            sliceArray files start stop)
      (seq 0 (totalBatches (length files))).

(** The loop sends the batches one after the other and stops at the first
    one whose response is not ok, which throws: the batches that were
    sent. *)
Fixpoint sentBatches {A} (responseOk : list A → bool)
    (batches : list (list A)) : list (list A) :=
  match batches with
  | [] => []
  | b :: rest => if responseOk b then b :: sentBatches responseOk rest
                 else [b]
  end.

(** The [visibleCols] object: a missing key is [undefined]. *)
Definition initialVisible (d : MigrationData) : gmap jsstring bool :=
  foldl (λ m col, <[str "target_" ++ col := true]> m)
        (foldl (λ m col, <[str "source_" ++ col := true]> m) ∅
               (columns (source d)))
        (columns (target d)).

(** [toggleColumn]: the new value is [!prev[colKey]], which is [true] for a
    missing key. *)
Definition toggleColumn (colKey : jsstring) (prev : gmap jsstring bool)
  : gmap jsstring bool :=
  <[colKey := negb (default false (prev !! colKey))]> prev.

(** [visibleCols[key] !== false]. *)
Definition isVisible (visibleCols : gmap jsstring bool) (key : jsstring)
  : bool :=
  match visibleCols !! key with
  | Some false => false
  | _ => true
  end.

(** * Properties *)

(** ** Strings *)

Lemma startsWith_app (p k : jsstring) : Js.startsWith (p ++ k) p = true.
Proof.
  induction p as [|c p IH]; simpl; [done|].
  by rewrite Ascii.eqb_refl.
Qed.

Lemma startsWith_prefix (s p : jsstring) :
  Js.startsWith s p = true → ∃ k, s = p ++ k.
Proof.
  revert s. induction p as [|c p IH]; intros s; simpl.
  - intros _. by exists s.
  - destruct s as [|d s]; [done|].
    intros [Hcd Hp]%andb_true_iff. apply Ascii.eqb_eq in Hcd as ->.
    destruct (IH _ Hp) as [k ->]. by exists k.
Qed.

Lemma startsWith_iff (s p : jsstring) :
  Js.startsWith s p = true ↔ ∃ k, s = p ++ k.
Proof.
  split; [apply startsWith_prefix|].
  intros [k ->]. apply startsWith_app.
Qed.

Lemma startsWith_nil (s : jsstring) : Js.startsWith s [] = true.
Proof. by destruct s. Qed.

Lemma indexOf_char_first (before after : jsstring) (c : ascii) :
  c ∉ before →
  Js.indexOf (before ++ c :: after) [c] = Some (length before).
Proof.
  induction before as [|b before IH]; intros Hnotin; simpl.
  - by rewrite Ascii.eqb_refl.
  - apply not_elem_of_cons in Hnotin as [Hcb Hnotin].
    apply Ascii.eqb_neq in Hcb. rewrite Hcb. simpl.
    by rewrite (IH Hnotin).
Qed.

Lemma indexOf_char_none (s : jsstring) (c : ascii) :
  c ∉ s → Js.indexOf s [c] = None.
Proof.
  induction s as [|b s IH]; intros Hnotin; simpl; [done|].
  apply not_elem_of_cons in Hnotin as [Hcb Hnotin].
  apply Ascii.eqb_neq in Hcb. rewrite Hcb. simpl.
  by rewrite (IH Hnotin).
Qed.

Lemma substring_prefix (before after : jsstring) :
  Js.substring (before ++ after) 0 (length before) = before.
Proof.
  unfold Js.substring. rewrite length_app.
  replace (0 `min` (length before + length after)) with 0 by lia.
  replace (length before `min` (length before + length after))
    with (length before) by lia.
  replace (0 `max` length before - 0 `min` length before)
    with (length before) by lia.
  replace (0 `min` length before) with 0 by lia.
  rewrite drop_0. by rewrite take_app_length.
Qed.

Lemma substringFrom_suffix (before after : jsstring) (c : ascii) :
  Js.substringFrom (before ++ c :: after) (length before + 1) = after.
Proof.
  unfold Js.substringFrom.
  replace (before ++ c :: after) with ((before ++ [c]) ++ after)
    by (by rewrite <- app_assoc).
  replace (length before + 1) with (length (before ++ [c]))
    by (rewrite length_app; simpl; lia).
  apply drop_app_length.
Qed.

(** ** Regular expressions *)

Lemma runLength_le_length p lim s : runLength p lim s ≤ length s.
Proof.
  revert lim. induction s as [|c s IH]; intros lim; simpl; [lia|].
  destruct lim as [[|n]|]; [lia| |]; destruct (p c); simpl;
    try lia; specialize (IH (Some n)) || specialize (IH None); lia.
Qed.

Lemma runLength_le_limit p m s : runLength p (Some m) s ≤ m.
Proof.
  revert m. induction s as [|c s IH]; intros m; simpl; [lia|].
  destruct m as [|n]; [lia|]. destruct (p c); [|lia].
  specialize (IH n). lia.
Qed.

Lemma runLength_accepted p lim s :
  Forall (λ c, p c = true) (take (runLength p lim s) s).
Proof.
  revert lim. induction s as [|c s IH]; intros lim; simpl.
  - constructor.
  - destruct lim as [[|n]|]; [constructor| |];
      destruct (p c) eqn:Hp; simpl; try constructor; auto.
Qed.

Lemma runLength_all p lim s :
  Forall (λ c, p c = true) s →
  (∀ m, lim = Some m → length s ≤ m) →
  runLength p lim s = length s.
Proof.
  revert lim. induction s as [|c s IH]; intros lim Hall Hlim; simpl; [done|].
  apply Forall_cons in Hall as [Hc Hall].
  destruct lim as [[|n]|].
  - specialize (Hlim 0 eq_refl). simpl in Hlim. lia.
  - rewrite Hc. f_equal. apply IH; [done|].
    intros m [= <-]. specialize (Hlim (S n) eq_refl). simpl in Hlim. lia.
  - rewrite Hc. f_equal. apply IH; [done|]. intros m [=].
Qed.

Lemma backtrack_hit cont s lo j n :
  lo ≤ j → cont (drop j s) = Some n →
  backtrack cont s lo j = Some (j + n).
Proof.
  intros Hlo Hc. destruct j; simpl in *.
  - assert (lo = 0) as -> by lia. simpl. simpl in Hc. by rewrite Hc.
  - destruct (Nat.ltb_spec (S j) lo); [lia|]. by rewrite Hc.
Qed.

Lemma backtrack_Some cont s lo j r :
  backtrack cont s lo j = Some r →
  ∃ i n, lo ≤ i ≤ j ∧ cont (drop i s) = Some n ∧ r = i + n.
Proof.
  induction j as [|j IH]; simpl.
  - destruct (Nat.ltb_spec 0 lo); [done|].
    destruct (cont (drop 0 s)) as [n|] eqn:Hc; [|done].
    intros [= <-]. exists 0, n. repeat split; [lia..|done|done].
  - destruct (Nat.ltb_spec (S j) lo) as [|Hle]; [done|].
    destruct (cont (drop (S j) s)) as [n|] eqn:Hc.
    + intros [= <-]. exists (S j), n. simpl. repeat split; [lia..|done].
    + intros Hb. destruct (IH Hb) as (i & n & Hi & Hci & ->).
      exists i, n. repeat split; [lia..|done].
Qed.

Lemma regexTest_true (re : RegExp) (s : jsstring) :
  regexTest re s = true ↔
  ∃ pre suf, s = pre ++ suf ∧ is_Some (matchHere re suf).
Proof.
  induction s as [|c s IH]; simpl.
  - destruct (matchHere re []) as [n|] eqn:Hm.
    + split; [|done]. intros _. exists [], []. rewrite Hm. by eauto.
    + split; [done|]. intros (pre & suf & Heq & Hsome).
      symmetry in Heq. apply app_eq_nil in Heq as [-> ->].
      rewrite Hm in Hsome. by destruct Hsome.
  - destruct (matchHere re (c :: s)) as [n|] eqn:Hm.
    + split; [|done]. intros _. exists [], (c :: s). rewrite Hm. by eauto.
    + rewrite IH. split.
      * intros (pre & suf & -> & Hsome). by exists (c :: pre), suf.
      * intros (pre & suf & Heq & Hsome). destruct pre as [|d pre].
        -- simpl in Heq. subst suf. rewrite Hm in Hsome. by destruct Hsome.
        -- injection Heq as -> ->. by exists pre, suf.
Qed.

Lemma runLength_zero p s : runLength p (Some 0) s = 0.
Proof. by destruct s. Qed.

(** A literal atom takes exactly one accepted code unit. *)
Lemma matchAtoms_lit ic w rest anchored (s : jsstring) :
  matchAtoms (litAtom ic w :: rest) anchored s =
  match s with
  | c :: s' => if accepts (ClassLit ic w) c
               then S <$> matchAtoms rest anchored s'
               else None
  | [] => None
  end.
Proof.
  destruct s as [|c s']; [done|].
  cbn [matchAtoms litAtom class atLeast atMost runLength].
  destruct (accepts (ClassLit ic w) c).
  - rewrite runLength_zero. cbn [backtrack Nat.ltb Nat.leb drop].
    rewrite drop_0. by destruct (matchAtoms rest anchored s').
  - by cbn.
Qed.

(** The extension pattern at the start of a string: a dot, then 2 to 4
    letters or digits, then the end. *)
Lemma matchHere_extension (s : jsstring) :
  is_Some (matchHere extensionRegex s) ↔
  ∃ ext, s = Js.DOT :: ext ∧ 2 ≤ length ext ≤ 4
         ∧ Forall (λ c, Js.isAlnum c = true) ext.
Proof.
  unfold matchHere, extensionRegex. cbn [atoms anchoredEnd].
  rewrite matchAtoms_lit. split.
  - intros [r Hr]. destruct s as [|c s]; [done|].
    cbn [accepts] in Hr.
    destruct (Ascii.eqb c Js.DOT) eqn:Hc; [|done].
    apply Ascii.eqb_eq in Hc as ->. exists s. split; [done|].
    destruct (matchAtoms _ true s) as [n|] eqn:Hcont; [|done].
    cbn [matchAtoms class atLeast atMost] in Hcont.
    apply backtrack_Some in Hcont as (j & m & Hj & Hnil & _).
    destruct (drop j s) eqn:Hdrop; [|done].
    pose proof (runLength_le_length (accepts ClassAlnum) (Some 4) s) as Hlen.
    pose proof (runLength_le_limit (accepts ClassAlnum) 4 s) as Hlim.
    assert (length s ≤ j).
    { apply drop_nil_inv in Hdrop. lia. }
    assert (runLength (accepts ClassAlnum) (Some 4) s = length s) as Hk
      by lia.
    pose proof (runLength_accepted (accepts ClassAlnum) (Some 4) s) as Hacc.
    rewrite Hk, firstn_all in Hacc. split; [lia|done].
  - intros (ext & -> & Hlen & Hall).
    cbn [accepts]. rewrite Ascii.eqb_refl.
    cbn [matchAtoms class atLeast atMost].
    rewrite (runLength_all (accepts ClassAlnum) (Some 4) ext Hall)
      by (intros m [= <-]; lia).
    erewrite backtrack_hit; [by eauto|lia|].
    by rewrite drop_all.
Qed.

Lemma regexTest_extension (identifier : jsstring) :
  regexTest extensionRegex identifier = true ↔
  endsInShortExtension identifier.
Proof.
  rewrite regexTest_true. unfold endsInShortExtension. split.
  - intros (pre & suf & -> & Hm).
    apply matchHere_extension in Hm as (ext & -> & Hlen & Hall).
    by exists pre, ext.
  - intros (stem & ext & -> & Hlen & Hall).
    exists stem, (Js.DOT :: ext). split; [done|].
    apply matchHere_extension. by exists ext.
Qed.

(** ** Reference resolver *)

Lemma shapeValid_iff (identifier : jsstring) :
  shapeValid identifier = true ↔
  endsInShortExtension identifier ∨ length identifier ≤ 20.
Proof.
  unfold shapeValid. rewrite <- regexTest_extension.
  destruct (regexTest extensionRegex identifier); simpl.
  - split; [by left|done].
  - destruct (Nat.ltb_spec 20 (length identifier)); simpl.
    + split; [done|]. intros [?|?]; [done|lia].
    + split; [|done]. intros _. right. lia.
Qed.

(** The click handler does what the shape check says: a valid identifier is
    fetched, an invalid one is reported. *)
Lemma targetSourceClick_classifies (c : ascii) (value : jsstring) :
  targetSourceClick (c :: value) =
  if shapeValid (resolve (c :: value)).1
  then FetchDocument (resolve (c :: value)).1 (resolve (c :: value)).2
  else InvalidFilenameAlert (resolve (c :: value)).1.
Proof.
  unfold targetSourceClick, handleViewDocument, shapeValid.
  destruct (resolve (c :: value)) as [filename context]. simpl.
  by destruct (negb (regexTest extensionRegex filename)
               && (20 <? length filename)).
Qed.

(** C9.  Resolution splits the raw reference at its first colon: the text
    before it, trimmed, is the identifier and the text after it, trimmed, is
    the context; without a colon the whole string is the identifier and the
    context is empty.  Resolution is a total function.  The shape check
    accepts an identifier exactly when it ends in a dot followed by 2 to 4
    letters or digits, or has at most 20 characters, and the click handler
    fetches or reports accordingly.  The reference ITEM.md: IPROD field
    resolves to ITEM.md and IPROD field, and the 61-character description
    without extension is invalid. *)
Theorem resolve_splits_and_shape_classifies :
  ∀ raw : jsstring,
    (∀ before after, Js.COLON ∉ before → raw = before ++ Js.COLON :: after →
       resolve raw = (Js.trim before, Js.trim after))
    ∧ (Js.COLON ∉ raw → resolve raw = (raw, []))
    ∧ (shapeValid raw = true ↔ endsInShortExtension raw ∨ length raw ≤ 20)
    ∧ (∀ c value, raw = c :: value →
         targetSourceClick raw =
         if shapeValid (resolve raw).1
         then FetchDocument (resolve raw).1 (resolve raw).2
         else InvalidFilenameAlert (resolve raw).1)
    ∧ resolve (str "ITEM.md: IPROD field") = (str "ITEM.md", str "IPROD field")
    ∧ length (str "some-long-description-without-colon-or-extension-thirty-chars") = 61
    ∧ shapeValid (str "some-long-description-without-colon-or-extension-thirty-chars") = false.
Proof.
  intros raw. repeat split.
  - intros before after Hnotin ->. unfold resolve.
    rewrite (indexOf_char_first before after Js.COLON Hnotin).
    by rewrite substring_prefix, substringFrom_suffix.
  - intros Hnotin. unfold resolve. by rewrite indexOf_char_none.
  - by intros ?%shapeValid_iff.
  - by intros ?%shapeValid_iff.
  - intros c value ->. apply targetSourceClick_classifies.
Qed.

(** C10.  A raw reference that begins with a colon resolves to the empty
    identifier, with the trimmed remainder as context; the empty identifier
    passes the shape check, its length 0 not exceeding 20, so the document
    fetch is issued with an empty file name and nothing is reported. *)
Theorem leading_colon_fetches_empty_filename :
  ∀ rest : jsstring,
    resolve (Js.COLON :: rest) = ([], Js.trim rest)
    ∧ shapeValid [] = true
    ∧ targetSourceClick (Js.COLON :: rest) = FetchDocument [] (Js.trim rest).
Proof.
  intros rest.
  assert (resolve (Js.COLON :: rest) = ([], Js.trim rest)) as Hres.
  { unfold resolve. simpl Js.indexOf. cbv iota beta.
    change (Js.COLON :: rest) with ([] ++ Js.COLON :: rest).
    change 0 with (length (@nil ascii)) at 1 2.
    by rewrite substring_prefix, substringFrom_suffix. }
  split; [exact Hres|]. split; [reflexivity|].
  rewrite targetSourceClick_classifies, Hres. reflexivity.
Qed.

(** ** Evidence locator *)

Lemma getFlexibleRegex_short (phrase : jsstring) :
  length phrase < 2 → getFlexibleRegex phrase = None.
Proof.
  intros Hlen. unfold getFlexibleRegex.
  by destruct (Nat.ltb_spec (length phrase) 2); [|lia].
Qed.

(** Membership in the short lists of strategies that [locate] returns. *)
Ltac elem_cases :=
  repeat match goal with
    | H : _ ∈ [] |- _ => by apply elem_of_nil in H
    | H : _ ∈ _ :: _ |- _ => apply elem_of_cons in H as [H|H]; try done
    end.

Ltac locate_case :=
  repeat split; intros;
  try match goal with |- _ ∉ _ => intro end;
  elem_cases; try done;
  try (by eexists); try (simpl in *; lia);
  try (by apply list_elem_of_here).

(** C3, as the code has it.  On a document that is not HTML and for a
    phrase of two or more characters, whatever the marking library is, the
    strategies are entered in the order exact match, word sequence, loose
    fallback, and the run stops at the first one that marks a span, whose
    spans are the result: the exact match always runs first; the word
    sequence runs only after the exact match marked nothing, and only when
    the phrase has a token; the fallback is entered only after both ran and
    both marked nothing.  On an HTML document no strategy is entered and
    nothing is marked. *)
Theorem locate_strategies_in_order :
  ∀ (mark : jsstring → jsstring → list span)
    (markRegExp : RegExp → jsstring → list span)
    (phrase body : jsstring),
    2 ≤ length phrase →
    let '(tried, spans) := locate mark markRegExp phrase body in
    tried `prefix_of` [ExactMatch; WordSequence; LooseFallback]
    ∧ (isHtmlDoc body = true → tried = [] ∧ spans = [])
    ∧ (isHtmlDoc body = false →
         (mark phrase body ≠ [] →
            tried = [ExactMatch] ∧ spans = mark phrase body)
         ∧ (mark phrase body = [] → getFlexibleRegex phrase = None →
              tried = [ExactMatch] ∧ spans = [])
         ∧ (∀ regex,
              mark phrase body = [] →
              getFlexibleRegex phrase = Some regex →
              (markRegExp regex body ≠ [] →
                 tried = [ExactMatch; WordSequence]
                 ∧ spans = markRegExp regex body)
              ∧ (markRegExp regex body = [] →
                   tried = [ExactMatch; WordSequence; LooseFallback])))
    ∧ (WordSequence ∈ tried →
         mark phrase body = []
         ∧ ∃ regex, getFlexibleRegex phrase = Some regex)
    ∧ (LooseFallback ∈ tried →
         mark phrase body = []
         ∧ ∃ regex, getFlexibleRegex phrase = Some regex
             ∧ markRegExp regex body = []).
Proof.
  intros mark markRegExp phrase body Hlen.
  unfold locate.
  destruct phrase as [|c phrase]; [simpl in Hlen; lia|].
  destruct (isHtmlDoc body); [locate_case|].
  set (p := c :: phrase).
  destruct (mark p body) as [|sp total] eqn:Htotal; simpl; [|locate_case].
  destruct (getFlexibleRegex p) as [regex|] eqn:Hregex; [|locate_case].
  destruct (markRegExp regex body) as [|sp2 totalRegex] eqn:Htotal2; simpl.
  - locate_case; simplify_eq; try done; by eexists.
  - locate_case; simplify_eq; try done; try congruence; by eexists.
Qed.

Lemma locate_strategies_in_order_witness :
  2 ≤ length (str "Order Master")
  ∧ let '(tried, spans) :=
      locate markExact markRegExpAll
             (str "Order Master") (str "See Order|Master table") in
    tried = [ExactMatch; WordSequence] ∧ spans = [(4, 16)].
Proof.
  assert (2 ≤ length (str "Order Master")) as Hlen by (simpl; lia).
  split; [exact Hlen|].
  pose proof (locate_strategies_in_order markExact markRegExpAll
                (str "Order Master") (str "See Order|Master table") Hlen)
    as H.
  destruct (locate markExact markRegExpAll
              (str "Order Master") (str "See Order|Master table"))
    as [tried spans].
  destruct H as (_ & _ & H & _).
  destruct (H eq_refl) as (_ & _ & H2).
  destruct (H2 _ eq_refl eq_refl) as [H3 _].
  apply H3. discriminate.
Defined.

(** C3 as stated fails on an HTML document: the phrase Order Master stands
    in the body and the exact match of the marking library finds it, yet
    the effect enters no strategy and marks nothing. *)
Lemma html_document_runs_no_strategy :
  2 ≤ length (str "Order Master")
  ∧ markExact (str "Order Master")
              (str "<html><p>Order Master</p></html>") = [(9, 21)]
  ∧ locate markExact markRegExpAll (str "Order Master")
           (str "<html><p>Order Master</p></html>") = ([], [])
  ∧ ¬ (∀ phrase body,
         2 ≤ length phrase →
         markExact phrase body ≠ [] →
         (locate markExact markRegExpAll phrase body).2
         = markExact phrase body).
Proof.
  split; [simpl; lia|]. split; [reflexivity|]. split; [reflexivity|].
  intros H.
  specialize (H (str "Order Master")
                (str "<html><p>Order Master</p></html>")).
  simpl in H. discriminate H; [lia|discriminate].
Qed.

(** C2, as the code has it.  For a phrase of fewer than 2 characters the
    word-sequence pattern is not built and neither the word sequence nor the
    fallback is tried.  The empty phrase runs nothing and marks nothing; a
    phrase of one character is still searched by the exact match, and its
    spans are the result. *)
Theorem locate_short_phrase_exact_only :
  ∀ (mark : jsstring → jsstring → list span)
    (markRegExp : RegExp → jsstring → list span)
    (phrase body : jsstring),
    length phrase < 2 →
    let '(tried, spans) := locate mark markRegExp phrase body in
    getFlexibleRegex phrase = None
    ∧ (WordSequence ∉ tried) ∧ (LooseFallback ∉ tried)
    ∧ (phrase = [] → tried = [] ∧ spans = [])
    ∧ (phrase ≠ [] → isHtmlDoc body = false →
         tried = [ExactMatch] ∧ spans = mark phrase body).
Proof.
  intros mark markRegExp phrase body Hlen.
  unfold locate. rewrite (getFlexibleRegex_short phrase Hlen).
  destruct phrase as [|c phrase]; [locate_case|].
  destruct (isHtmlDoc body); [locate_case|].
  destruct (mark (c :: phrase) body) as [|sp total] eqn:Htotal; simpl;
    locate_case.
Qed.

Lemma locate_short_phrase_exact_only_witness :
  length (str "x") < 2
  ∧ let '(tried, spans) :=
      locate markExact markRegExpAll (str "x") (str "xyz") in
    getFlexibleRegex (str "x") = None
    ∧ (WordSequence ∉ tried) ∧ (LooseFallback ∉ tried)
    ∧ (str "x" = [] → tried = [] ∧ spans = [])
    ∧ (str "x" ≠ [] → isHtmlDoc (str "xyz") = false →
         tried = [ExactMatch] ∧ spans = markExact (str "x") (str "xyz")).
Proof.
  split; [simpl; lia|].
  apply (locate_short_phrase_exact_only markExact markRegExpAll
           (str "x") (str "xyz")).
  simpl; lia.
Defined.

(** C2 as stated fails: the phrase x has length 1, yet the exact match runs
    on the body xyz and marks the span from 0 to 1. *)
Lemma locate_one_char_phrase_is_searched :
  length (str "x") < 2
  ∧ locate markExact markRegExpAll (str "x") (str "xyz")
    = ([ExactMatch], [(0, 1)]).
Proof. split; [simpl; lia|reflexivity]. Qed.

(** C8.  The phrase Order Master is not a substring of the body
    See Order|Master table, so the exact match marks nothing.  Its tokens,
    split on runs of characters outside letters, digits and underscore, are
    Order and Master; the pattern is the tokens joined by one or more
    characters of the junk class, matched ignoring case.  The word sequence
    then marks the region from offset 4 to offset 16, and the fallback is
    not entered; the same holds when the phrase is written in another
    case. *)
Theorem locate_order_master_by_word_sequence :
  markExact (str "Order Master") (str "See Order|Master table") = []
  ∧ filter (λ w, 0 < length w) (splitNonWord (str "Order Master"))
    = [str "Order"; str "Master"]
  ∧ getFlexibleRegex (str "Order Master")
    = Some (mkRegExp ((litAtom true <$> str "Order") ++ [junkAtom]
                      ++ (litAtom true <$> str "Master")) false)
  ∧ locate markExact markRegExpAll
           (str "Order Master") (str "See Order|Master table")
    = ([ExactMatch; WordSequence], [(4, 16)])
  ∧ locate markExact markRegExpAll
           (str "ORDER  master") (str "See Order|Master table")
    = ([ExactMatch; WordSequence], [(4, 16)]).
Proof.
  split; [reflexivity|]. split; [reflexivity|]. split; [reflexivity|].
  split; reflexivity.
Qed.

(** ** Stage statuses *)

Lemma stagesOf_snoc (logs : list jsstring) (log : jsstring) :
  stagesOf (logs ++ [log]) = progressLog (stagesOf logs) log.
Proof. unfold stagesOf. by rewrite foldl_app. Qed.

Ltac case_markers :=
  repeat match goal with
    | |- context [Js.includes ?l ?m] => destruct (Js.includes l m)
    end.

(** What one log does to one stage: the completion marker wins, then the
    start marker, otherwise the stage keeps its status. *)
Lemma progressLog_status (st : Stages) (log : jsstring) (s : Stage) :
  statusOf (progressLog st log) s =
  if doneMarker s log then completed
  else if startMarker s log then active
  else statusOf st s.
Proof.
  unfold progressLog, doneMarker, startMarker.
  destruct s; case_markers; reflexivity.
Qed.

(** C5, as the code has it.  Folding the progress events in arrival order,
    a stage never returns to waiting once it has left it, and each event
    leaves the stage at the status of the last marker it carries: completed
    when it carries a completion marker of the stage, otherwise active when
    it carries a start marker, otherwise unchanged.  A completed stage thus
    stays completed under every event without its start marker, and goes
    back to active under an event that carries the start marker alone. *)
Theorem stage_status_follows_last_marker :
  ∀ (s : Stage) (logs : list jsstring) (log : jsstring),
    (statusOf (stagesOf logs) s ≠ waiting →
       statusOf (stagesOf (logs ++ [log])) s ≠ waiting)
    ∧ (doneMarker s log = true →
         statusOf (stagesOf (logs ++ [log])) s = completed)
    ∧ (doneMarker s log = false → startMarker s log = true →
         statusOf (stagesOf (logs ++ [log])) s = active)
    ∧ (doneMarker s log = false → startMarker s log = false →
         statusOf (stagesOf (logs ++ [log])) s = statusOf (stagesOf logs) s).
Proof.
  intros s logs log. rewrite stagesOf_snoc, progressLog_status.
  destruct (doneMarker s log), (startMarker s log); repeat split; done.
Qed.

(** C5 as stated fails: after the log Converted the ingestion stage is
    completed, and the later log Converting documents moves it back to
    active, which is lower in the order waiting, active, completed. *)
Lemma completed_stage_goes_back_to_active :
  statusOf (stagesOf [str "Converted"]) Converting = completed
  ∧ statusOf (stagesOf ([str "Converted"] ++ [str "Converting documents"]))
             Converting = active
  ∧ ¬ (statusRank
         (statusOf (stagesOf [str "Converted"]) Converting)
       ≤ statusRank
           (statusOf
              (stagesOf ([str "Converted"] ++ [str "Converting documents"]))
              Converting)).
Proof.
  split; [reflexivity|]. split; [reflexivity|].
  vm_compute. lia.
Qed.

(** ** Iteration store *)

Lemma insertByIteration_perm x l : insertByIteration x l ≡ₚ x :: l.
Proof.
  induction l as [|y l IH]; simpl; [done|].
  destruct (iteration x <=? iteration y)%Z; [done|].
  rewrite IH. apply Permutation_swap.
Qed.

Lemma sortByIteration_perm l : sortByIteration l ≡ₚ l.
Proof.
  induction l as [|x l IH]; simpl; [done|].
  by rewrite insertByIteration_perm, IH.
Qed.

Lemma insertByIteration_ascending x l :
  ascending l → ascending (insertByIteration x l).
Proof.
  unfold ascending. induction l as [|y l IH]; intros Hs; simpl.
  - repeat constructor.
  - apply StronglySorted_inv in Hs as [Hl Hy].
    destruct (Z.leb_spec (iteration x) (iteration y)) as [Hle|Hgt].
    + constructor; [by constructor|]. constructor; [done|].
      eapply Forall_impl; [exact Hy|]. simpl. intros z Hz. lia.
    + constructor; [by apply IH|].
      rewrite insertByIteration_perm. constructor; [lia|done].
Qed.

Lemma sortByIteration_ascending l : ascending (sortByIteration l).
Proof.
  induction l as [|x l IH]; simpl; [constructor|].
  by apply insertByIteration_ascending.
Qed.

(** Insertion passes only snapshots with a strictly smaller number, so the
    snapshots of one number keep their order. *)
Lemma filter_insertByIteration k x l :
  List.filter (λ r, (iteration r =? k)%Z) (insertByIteration x l)
  = List.filter (λ r, (iteration r =? k)%Z) (x :: l).
Proof.
  induction l as [|y l IH]; [done|].
  cbn [insertByIteration].
  destruct (Z.leb_spec (iteration x) (iteration y)) as [Hle|Hgt]; [done|].
  cbn [List.filter] in *. rewrite IH.
  destruct (Z.eqb_spec (iteration x) k), (Z.eqb_spec (iteration y) k);
    try done; lia.
Qed.

Lemma filter_sortByIteration k l :
  List.filter (λ r, (iteration r =? k)%Z) (sortByIteration l)
  = List.filter (λ r, (iteration r =? k)%Z) l.
Proof.
  induction l as [|x l IH]; [done|].
  cbn [sortByIteration foldr]. fold (sortByIteration l).
  rewrite filter_insertByIteration. cbn [List.filter]. by rewrite IH.
Qed.

Lemma find_head_filter {A} (f : A → bool) (l : list A) :
  List.find f l = head (List.filter f l).
Proof.
  induction l as [|x l IH]; [done|]. simpl. by destruct (f x).
Qed.

Lemma recordAll_from_perm acc rs :
  foldl recordIteration acc rs ≡ₚ acc ++ rs.
Proof.
  revert acc. induction rs as [|r rs IH]; intros acc; simpl.
  - by rewrite app_nil_r.
  - rewrite IH. unfold recordIteration. rewrite sortByIteration_perm.
    by rewrite <- app_assoc.
Qed.

Lemma recordAll_from_ascending acc rs :
  ascending acc → ascending (foldl recordIteration acc rs).
Proof.
  revert acc. induction rs as [|r rs IH]; intros acc Hacc; simpl; [done|].
  apply IH. apply sortByIteration_ascending.
Qed.

Lemma recordAll_from_filter k acc rs :
  List.filter (λ r, (iteration r =? k)%Z) (foldl recordIteration acc rs)
  = List.filter (λ r, (iteration r =? k)%Z) (acc ++ rs).
Proof.
  revert acc. induction rs as [|r rs IH]; intros acc; simpl.
  - by rewrite app_nil_r.
  - rewrite IH. unfold recordIteration.
    rewrite !List.filter_app, filter_sortByIteration, List.filter_app.
    rewrite <- app_assoc. f_equal.
    change (r :: rs) with ([r] ++ rs). by rewrite List.filter_app.
Qed.

(** C4, as the code has it.  For every sequence of iteration_complete
    events the store keeps every snapshot, also several with one number,
    and is always ascending by iteration number; the snapshots recorded
    with one number stand in the store in the order they arrived; looking a
    number up gives the snapshot that was recorded first with it. *)
Theorem iteration_store_keeps_all_sorted :
  ∀ rs : list IterationResult,
    ascending (recordAll rs)
    ∧ recordAll rs ≡ₚ rs
    ∧ length (recordAll rs) = length rs
    ∧ (∀ k, List.filter (λ r, (iteration r =? k)%Z) (recordAll rs)
            = List.filter (λ r, (iteration r =? k)%Z) rs)
    ∧ (∀ k, findIteration k (recordAll rs) = findIteration k rs).
Proof.
  intros rs. unfold recordAll. repeat split.
  - apply recordAll_from_ascending. constructor.
  - by rewrite recordAll_from_perm.
  - by rewrite recordAll_from_perm.
  - intros k. by rewrite recordAll_from_filter.
  - intros k. unfold findIteration.
    by rewrite !find_head_filter, recordAll_from_filter.
Qed.

(** C4 as stated fails: two snapshots recorded with number 1 are both
    kept, and the lookup of 1 gives the first one, not the last. *)
Lemma duplicate_iteration_is_kept_first_wins :
  recordAll [mkIterationResult 1 (str "a"); mkIterationResult 1 (str "b")]
  = [mkIterationResult 1 (str "a"); mkIterationResult 1 (str "b")]
  ∧ findIteration 1
      (recordAll [mkIterationResult 1 (str "a");
                  mkIterationResult 1 (str "b")])
    = Some (mkIterationResult 1 (str "a")).
Proof. split; reflexivity. Qed.

(** ** Iteration selection and row pairing *)

Section RowObject.

Context {V : Type} (f : jsstring → jsstring) (g : jsstring → V).
Hypothesis f_inj : ∀ a b, f a = f b → a = b.

(** The object after [cols.forEach(col => obj[f(col)] = g(col))]. *)
Lemma forEach_assign_lookup (cols : list jsstring) (obj : gmap jsstring V)
    (col : jsstring) :
  col ∈ cols ∨ obj !! f col = Some (g col) →
  foldl (λ o c, <[f c := g c]> o) obj cols !! f col = Some (g col).
Proof.
  revert obj. induction cols as [|c cols IH]; intros obj Hcol; simpl.
  - destruct Hcol as [Hin|Hobj]; [by apply elem_of_nil in Hin|done].
  - apply IH. destruct (decide (col ∈ cols)) as [|Hnotin]; [by left|].
    right. destruct (decide (c = col)) as [->|Hne].
    + apply lookup_insert_eq.
    + rewrite lookup_insert_ne by (intros Heq; by apply f_inj in Heq).
      destruct Hcol as [Hin|Hobj]; [|done].
      apply elem_of_cons in Hin as [->|Hin]; done.
Qed.

Lemma forEach_assign_other (cols : list jsstring) (obj : gmap jsstring V)
    (key : jsstring) :
  (∀ c, f c ≠ key) →
  foldl (λ o c, <[f c := g c]> o) obj cols !! key = obj !! key.
Proof.
  intros Hkey. revert obj.
  induction cols as [|c cols IH]; intros obj; simpl; [done|].
  rewrite IH. by apply lookup_insert_ne.
Qed.

End RowObject.

(** The cells of a table row: the source cells come from the source row,
    the target cells from the target row at the same index. *)
Lemma buildRow_cells (d : MigrationData) (idx : nat)
    (row : gmap jsstring jsstring) :
  (∀ col, col ∈ columns (source d) →
     buildRow d idx row !! (str "source_" ++ col)
     = Some (getProperty row col))
  ∧ (∀ col, col ∈ columns (target d) →
       buildRow d idx row !! (str "target_" ++ col)
       = Some (getProperty (default ∅ (data (target d) !! idx)) col)).
Proof.
  unfold buildRow. split; intros col Hcol.
  - rewrite lookup_insert_ne by done.
    rewrite (forEach_assign_other (λ c, str "target_" ++ c)) by done.
    apply (forEach_assign_lookup (λ c, str "source_" ++ c)
             (λ c, getProperty row c)).
    + intros a b Heq. by simplify_eq/=.
    + by left.
  - rewrite lookup_insert_ne by done.
    apply (forEach_assign_lookup (λ c, str "target_" ++ c)
             (λ c, getProperty (default ∅ (data (target d) !! idx)) c)).
    + intros a b Heq. by simplify_eq/=.
    + by left.
Qed.

(** C7.  With a terminal result and iteration k in the store, selecting k
    makes the displayed data the terminal source paired with the decoding of
    the content recorded for k; the terminal result itself and the store
    stay as they were.  The table has one row per terminal source row; row
    i carries the source cells of source row i, the same cells as in the
    terminal view, and the target cells of decoded row i (read from the
    empty object where the decoding has no row i). *)
Theorem select_iteration_pairs_with_terminal_source :
  ∀ (st : AppState) (k : Z) (fd : MigrationData) (r : IterationResult),
    st_finalData st = Some fd →
    findIteration k (st_iterationResults st) = Some r →
    let st' := handleIterationSelect (Some k) st in
    let shown := mkMigrationData (source fd) (parseCSV (content r)) in
    st_data st' = Some shown
    ∧ source shown = source fd
    ∧ st_finalData st' = Some fd
    ∧ st_iterationResults st' = st_iterationResults st
    ∧ st_selectedIteration st' = Some k
    ∧ length (buildRows shown) = length (data (source fd))
    ∧ (∀ i srow, data (source fd) !! i = Some srow →
         ∃ obj final,
           buildRows shown !! i = Some obj
           ∧ buildRows fd !! i = Some final
           ∧ (∀ col, col ∈ columns (source fd) →
                obj !! (str "source_" ++ col)
                = Some (getProperty srow col)
                ∧ obj !! (str "source_" ++ col)
                  = final !! (str "source_" ++ col))
           ∧ (∀ col, col ∈ columns (parseCSV (content r)) →
                obj !! (str "target_" ++ col)
                = Some (getProperty
                          (default ∅ (data (parseCSV (content r)) !! i))
                          col))).
Proof.
  intros st k fd r Hfinal Hfind st' shown.
  assert (st' = withData st (Some k) (Some shown)) as ->.
  { unfold st', handleIterationSelect. by rewrite Hfind, Hfinal. }
  repeat split; try done.
  - unfold buildRows. by rewrite length_imap.
  - intros i srow Hrow.
    exists (buildRow shown i srow), (buildRow fd i srow).
    unfold buildRows. rewrite !list_lookup_imap. simpl. rewrite Hrow. simpl.
    repeat split; try done.
    + by apply (buildRow_cells shown i srow).
    + destruct (buildRow_cells shown i srow) as [Hs _].
      destruct (buildRow_cells fd i srow) as [Hf _].
      etrans; [by apply Hs|]. symmetry. by apply Hf.
    + intros col Hcol. by apply (buildRow_cells shown i srow).
Qed.

Lemma select_iteration_pairs_with_terminal_source_witness :
  st_finalData exampleState = Some exampleFinal
  ∧ findIteration 2 (st_iterationResults exampleState)
    = Some (mkIterationResult 2 (str "Target" ++ [Js.NEWLINE] ++ str "b"
                                 ++ [Js.NEWLINE] ++ str "c"))
  ∧ st_data (handleIterationSelect (Some 2%Z) exampleState)
    = Some (mkMigrationData exampleSource
              (parseCSV (str "Target" ++ [Js.NEWLINE] ++ str "b"
                         ++ [Js.NEWLINE] ++ str "c")))
  ∧ st_finalData (handleIterationSelect (Some 2%Z) exampleState)
    = Some exampleFinal.
Proof.
  assert (st_finalData exampleState = Some exampleFinal) as H1
    by reflexivity.
  assert (findIteration 2 (st_iterationResults exampleState)
          = Some (mkIterationResult 2
                    (str "Target" ++ [Js.NEWLINE] ++ str "b"
                     ++ [Js.NEWLINE] ++ str "c"))) as H2
    by reflexivity.
  split; [exact H1|]. split; [exact H2|].
  pose proof (select_iteration_pairs_with_terminal_source
                exampleState 2 exampleFinal _ H1 H2) as H.
  cbv zeta in H. destruct H as (Hdata & _ & Hfd & _).
  split; [exact Hdata|exact Hfd].
Defined.

(** ** Splitting and stream de-framing *)

Lemma startsWith_length (s p : jsstring) :
  Js.startsWith s p = true → length p ≤ length s.
Proof.
  intros [k ->]%startsWith_prefix. rewrite length_app. lia.
Qed.

Lemma startsWith_app_l (a b p : jsstring) :
  Js.startsWith a p = true → Js.startsWith (a ++ b) p = true.
Proof.
  intros [k ->]%startsWith_prefix. rewrite <- app_assoc.
  apply startsWith_app.
Qed.

Lemma startsWith_app_long (a b p : jsstring) :
  length p ≤ length a → Js.startsWith (a ++ b) p = Js.startsWith a p.
Proof.
  revert a. induction p as [|c p IH]; intros a Hlen; [done|].
  destruct a as [|d a]; [simpl in Hlen; lia|].
  simpl. rewrite IH; [done|]. simpl in Hlen. lia.
Qed.

Lemma split_go_nonempty sep skip s : Js.split_go sep skip s ≠ [].
Proof.
  revert skip. induction s as [|c s IH]; intros skip; simpl; [done|].
  destruct skip; [|apply IH].
  destruct (Js.startsWith (c :: s) sep); [done|].
  specialize (IH 0). by destruct (Js.split_go sep 0 s).
Qed.

Lemma split_go_short sep s :
  length s < length sep → Js.split_go sep 0 s = [s].
Proof.
  induction s as [|c s IH]; intros Hlen; simpl; [done|].
  destruct (Js.startsWith (c :: s) sep) eqn:Hstart.
  - apply startsWith_length in Hstart. lia.
  - rewrite IH; [done|]. simpl in Hlen. lia.
Qed.

Lemma join_consHead sep c (pieces : list jsstring) :
  pieces ≠ [] →
  Js.join sep (Js.consHead c pieces) = c :: Js.join sep pieces.
Proof. destruct pieces as [|p [|q pieces]]; done. Qed.

Lemma join_cons_nonempty sep p (pieces : list jsstring) :
  pieces ≠ [] → Js.join sep (p :: pieces) = p ++ sep ++ Js.join sep pieces.
Proof. by destruct pieces. Qed.

(** Joining the pieces with the separator gives the string back. *)
Lemma split_go_join sep skip s :
  sep ≠ [] → skip ≤ length s →
  Js.join sep (Js.split_go sep skip s) = drop skip s.
Proof.
  intros Hsep. revert skip.
  induction s as [|c s IH]; intros skip Hskip; simpl in Hskip.
  - by assert (skip = 0) as -> by lia.
  - destruct skip as [|k]; [|apply IH; lia].
    cbn [Js.split_go].
    destruct (Js.startsWith (c :: s) sep) eqn:Hstart.
    + rewrite join_cons_nonempty by apply split_go_nonempty.
      pose proof Hstart as [rest Hrest]%startsWith_prefix.
      destruct sep as [|c' sep']; [done|].
      injection Hrest as <- ->.
      rewrite IH by (simpl; rewrite length_app; lia).
      simpl. rewrite Nat.sub_0_r.
      by rewrite drop_app_length.
    + rewrite join_consHead by apply split_go_nonempty.
      rewrite IH by lia. by rewrite drop_0.
Qed.

Lemma pop_consHead c (pieces : list jsstring) p q :
  pieces = p :: q :: drop 2 pieces →
  Js.pop (Js.consHead c pieces)
  = ((Js.pop pieces).1, Js.consHead c (Js.pop pieces).2).
Proof. intros ->. done. Qed.

(** Splitting a text cut in two: the pieces of the first part but the
    last, then the pieces of that last piece followed by the second part. *)
Lemma split_go_resume sep skip (a b : jsstring) :
  sep ≠ [] → skip ≤ length a →
  Js.split_go sep skip (a ++ b)
  = (Js.pop (Js.split_go sep skip a)).2
    ++ Js.split_go sep 0 ((Js.pop (Js.split_go sep skip a)).1 ++ b).
Proof.
  intros Hsep. revert skip.
  induction a as [|c a IH]; intros skip Hskip; simpl in Hskip.
  - by assert (skip = 0) as -> by lia.
  - destruct skip as [|k]; [|apply IH; lia].
    change ((c :: a) ++ b) with (c :: (a ++ b)).
    cbn [Js.split_go].
    destruct (Js.startsWith (c :: a ++ b) sep) eqn:Hab.
    + destruct (Js.startsWith (c :: a) sep) eqn:Ha.
      * pose proof (split_go_nonempty sep (length sep - 1) a) as Hne.
        rewrite IH.
        2:{ apply startsWith_length in Ha. simpl in Ha. lia. }
        unfold Js.pop. simpl.
        by destruct (Js.split_go sep (length sep - 1) a).
      * assert (length (c :: a) < length sep) as Hshort.
        { destruct (decide (length sep ≤ length (c :: a))) as [Hle|]; [|lia].
          rewrite <- (startsWith_app_long (c :: a) b sep Hle) in Ha.
          simpl in Ha. congruence. }
        assert (Js.split_go sep 0 a = [a]) as ->
          by (apply split_go_short; simpl in Hshort; lia).
        unfold Js.pop. simpl. by rewrite Hab.
    + assert (Js.startsWith (c :: a) sep = false) as ->.
      { destruct (Js.startsWith (c :: a) sep) eqn:Ha; [|done].
        apply (startsWith_app_l _ b) in Ha. simpl in Ha. congruence. }
      rewrite IH by lia.
      pose proof (split_go_join sep 0 a Hsep ltac:(lia)) as Hjoin.
      rewrite drop_0 in Hjoin.
      destruct (Js.split_go sep 0 a) as [|p [|q pieces]] eqn:Hsplit.
      * by apply split_go_nonempty in Hsplit.
      * simpl in Hjoin. subst p. unfold Js.pop. simpl. by rewrite Hab.
      * unfold Js.pop. simpl. done.
Qed.

Lemma split_resume (a b : jsstring) (c : ascii) (sep : jsstring) :
  Js.split (a ++ b) (c :: sep)
  = (Js.pop (Js.split a (c :: sep))).2
    ++ Js.split ((Js.pop (Js.split a (c :: sep))).1 ++ b) (c :: sep).
Proof. unfold Js.split. apply split_go_resume; [done|lia]. Qed.

(** The piece kept in the buffer holds no separator. *)
Lemma split_buffer (a : jsstring) (c : ascii) (sep : jsstring) :
  Js.split (Js.pop (Js.split a (c :: sep))).1 (c :: sep)
  = [(Js.pop (Js.split a (c :: sep))).1].
Proof.
  pose proof (split_resume a [] c sep) as H.
  rewrite !app_nil_r in H.
  assert (Js.split a (c :: sep)
          = (Js.pop (Js.split a (c :: sep))).2
            ++ [(Js.pop (Js.split a (c :: sep))).1]) as Hparts.
  { unfold Js.split.
    pose proof (split_go_nonempty (c :: sep) 0 a) as Hne.
    unfold Js.pop. simpl.
    destruct (exists_last Hne) as (front & lastp & ->).
    by rewrite removelast_last, last_snoc. }
  rewrite Hparts in H at 1. by apply app_inv_head in H.
Qed.

Section StreamProperties.

Variable parseEvent : jsstring → option Event.

Lemma readChunks_unfold (chunks : list jsstring) (s : StreamState) :
  foldl (readChunk parseEvent) s chunks
  = mkStreamState
      (foldl (processLine parseEvent) (session s)
             (framedRecords (buffer s) chunks))
      (bufferAfter (buffer s) chunks).
Proof.
  revert s. induction chunks as [|chunk chunks IH]; intros s.
  - by destruct s.
  - cbn [foldl framedRecords bufferAfter]. rewrite IH.
    unfold readChunk, framedBy.
    destruct (Js.pop (Js.split (buffer s ++ chunk) _)) as [buf lines].
    cbn [session buffer fst snd]. by rewrite foldl_app.
Qed.

Lemma processLines_events (lines : list jsstring) (st : AppState) :
  foldl (processLine parseEvent) st lines
  = foldl applyEvent st (omap (eventOfLine parseEvent) lines).
Proof.
  revert st. induction lines as [|line lines IH]; intros st; [done|].
  cbn [foldl]. rewrite IH.
  change (omap (eventOfLine parseEvent) (line :: lines))
    with (match eventOfLine parseEvent line with
          | Some e => e :: omap (eventOfLine parseEvent) lines
          | None => omap (eventOfLine parseEvent) lines
          end).
  unfold processLine, eventOfLine.
  destruct (Js.startsWith line (str "data: ")); [|done].
  by destruct (parseEvent (Js.sliceFrom line 6)).
Qed.

End StreamProperties.

(** The records processed so far and the buffer are, together, the pieces
    of everything received. *)
Lemma framed_concat (chunks : list jsstring) (buf : jsstring) :
  Js.split buf [Js.NEWLINE; Js.NEWLINE] = [buf] →
  framedRecords buf chunks ++ [bufferAfter buf chunks]
  = Js.split (buf ++ concat chunks) [Js.NEWLINE; Js.NEWLINE].
Proof.
  revert buf. induction chunks as [|chunk chunks IH]; intros buf Hbuf.
  - simpl. by rewrite app_nil_r.
  - cbn [framedRecords bufferAfter concat]. unfold framedBy.
    rewrite <- app_assoc, IH by apply split_buffer.
    rewrite (app_assoc buf chunk). by rewrite <- split_resume.
Qed.

Lemma framed_whole (chunks : list jsstring) :
  framedRecords [] chunks ++ [bufferAfter [] chunks]
  = Js.split (concat chunks) [Js.NEWLINE; Js.NEWLINE].
Proof. by rewrite framed_concat. Qed.

Lemma framed_same_text (chunks1 chunks2 : list jsstring) :
  concat chunks1 = concat chunks2 →
  framedRecords [] chunks1 = framedRecords [] chunks2
  ∧ bufferAfter [] chunks1 = bufferAfter [] chunks2.
Proof.
  intros Heq.
  pose proof (framed_whole chunks1) as H1.
  pose proof (framed_whole chunks2) as H2.
  rewrite Heq, <- H2 in H1. by apply app_inj_tail in H1.
Qed.

Lemma readStream_same_text parseEvent (chunks1 chunks2 : list jsstring) :
  concat chunks1 = concat chunks2 →
  readStream parseEvent chunks1 = readStream parseEvent chunks2.
Proof.
  intros [Hrec Hbuf]%framed_same_text.
  unfold readStream. rewrite !readChunks_unfold. cbn [session buffer].
  by rewrite Hrec, Hbuf.
Qed.

(** C6.  However the text of the response is cut into chunks, also inside
    an event record or inside the blank line that ends it, the reading loop
    processes the same records, parses the same events and ends in the same
    state, buffer included, as when the whole text arrives in one piece; the
    final state is the fold of the parsed events from the reset state.  Two
    chunkings of the same text therefore end in the same state.  (The text
    decoder runs in streaming mode, so the chunks of text are the text of
    the response cut at the chunk boundaries.) *)
Theorem deframing_is_independent_of_chunking :
  ∀ (parseEvent : jsstring → option Event) (chunks : list jsstring),
    framedRecords [] chunks = framedRecords [] [concat chunks]
    ∧ parsedEvents parseEvent chunks
      = parsedEvents parseEvent [concat chunks]
    ∧ readStream parseEvent chunks = readStream parseEvent [concat chunks]
    ∧ session (readStream parseEvent chunks)
      = foldl applyEvent resetState (parsedEvents parseEvent chunks)
    ∧ (∀ chunks', concat chunks' = concat chunks →
         readStream parseEvent chunks' = readStream parseEvent chunks).
Proof.
  intros parseEvent chunks.
  assert (concat chunks = concat [concat chunks]) as Hsame
    by (simpl; by rewrite app_nil_r).
  repeat split.
  - by apply framed_same_text.
  - unfold parsedEvents. f_equal. by apply framed_same_text.
  - by apply readStream_same_text.
  - unfold readStream, parsedEvents. rewrite readChunks_unfold.
    cbn [session buffer]. apply processLines_events.
  - intros chunks' Heq. by apply readStream_same_text.
Qed.

(** ** Tabular decoder *)

Lemma rawFields_nonempty inQ s : rawFields inQ s ≠ [].
Proof.
  revert inQ. induction s as [|c s IH]; intros inQ; simpl; [done|].
  destruct (Ascii.eqb c Js.DQUOTE).
  - specialize (IH (negb inQ)). by destruct (rawFields (negb inQ) s).
  - destruct (Ascii.eqb c Js.COMMA && negb inQ); [done|].
    specialize (IH inQ). by destruct (rawFields inQ s).
Qed.

Lemma consHead_prependHead c l (pieces : list jsstring) :
  Js.consHead c (prependHead l pieces) = prependHead (c :: l) pieces.
Proof. by destruct pieces. Qed.


Lemma prependHead_snoc l c (pieces : list jsstring) :
  pieces ≠ [] →
  prependHead (l ++ [c]) pieces = prependHead l (Js.consHead c pieces).
Proof.
  destruct pieces as [|p ps]; [done|]. intros _. simpl.
  by rewrite <- app_assoc.
Qed.

Lemma prependHead_nil (pieces : list jsstring) :
  pieces ≠ [] → prependHead [] pieces = pieces.
Proof. by destruct pieces. Qed.

Lemma substring_middle (pre post : jsstring) (from : nat) :
  from ≤ length pre →
  Js.substring (pre ++ post) from (length pre) = drop from pre.
Proof.
  intros Hfrom. unfold Js.substring. rewrite length_app.
  replace (from `min` (length pre + length post)) with from by lia.
  replace (length pre `min` (length pre + length post))
    with (length pre) by lia.
  replace (from `max` length pre - from `min` length pre)
    with (length pre - from) by lia.
  replace (from `min` length pre) with from by lia.
  rewrite drop_app_le by done.
  rewrite take_app_le by (rewrite length_drop; lia).
  apply take_ge. rewrite length_drop. lia.
Qed.

(** The loop of [parseLine], from any index on. *)
Lemma parseLine_loop (rest pre : jsstring) res from inQ :
  from ≤ length pre →
  let st := foldl (parseLine_step (pre ++ rest)) (mkLineState res from inQ)
                  (seq (length pre) (length rest)) in
  result st ++ [unquote (Js.substringFrom (pre ++ rest) (start st))]
  = res ++ (unquote <$> prependHead (drop from pre) (rawFields inQ rest)).
Proof.
  revert pre res from inQ.
  induction rest as [|c rest IH]; intros pre res from inQ Hfrom st.
  - subst st. simpl. unfold Js.substringFrom. by rewrite !app_nil_r.
  - subst st. cbn [length seq foldl].
    assert ((pre ++ c :: rest) !! length pre = Some c) as Hc
      by (by rewrite list_lookup_middle).
    assert (parseLine_step (pre ++ c :: rest) (mkLineState res from inQ)
              (length pre)
            = if Ascii.eqb c Js.DQUOTE
              then mkLineState res from (negb inQ)
              else if Ascii.eqb c Js.COMMA && negb inQ
              then mkLineState (res ++ [unquote (drop from pre)])
                               (length pre + 1) inQ
              else mkLineState res from inQ) as Hstep.
    { unfold parseLine_step. rewrite Hc. cbn [result start inQuotes].
      by rewrite substring_middle. }
    rewrite Hstep. clear Hstep Hc.
    assert (pre ++ c :: rest = (pre ++ [c]) ++ rest) as Hline
      by (by rewrite <- app_assoc).
    assert (S (length pre) = length (pre ++ [c])) as Hnext
      by (rewrite length_app; simpl; lia).
    assert (drop from (pre ++ [c]) = drop from pre ++ [c]) as Hdrop
      by (by rewrite drop_app_le).
    pose proof (rawFields_nonempty inQ rest) as Hne.
    pose proof (rawFields_nonempty (negb inQ) rest) as Hne'.
    cbn [rawFields]. rewrite Hline, Hnext.
    destruct (Ascii.eqb c Js.DQUOTE).
    + pose proof (IH (pre ++ [c]) res from (negb inQ)) as IH'.
      cbv zeta in IH'. rewrite IH' by lia.
      by rewrite Hdrop, prependHead_snoc.
    + destruct (Ascii.eqb c Js.COMMA && negb inQ).
      * pose proof (IH (pre ++ [c]) (res ++ [unquote (drop from pre)])
                       (length pre + 1) inQ) as IH'.
        cbv zeta in IH'. rewrite IH' by lia.
        rewrite (drop_ge (pre ++ [c])) by lia.
        rewrite prependHead_nil by done.
        rewrite <- app_assoc. simpl. by rewrite app_nil_r.
      * pose proof (IH (pre ++ [c]) res from inQ) as IH'.
        cbv zeta in IH'. rewrite IH' by lia.
        by rewrite Hdrop, prependHead_snoc.
Qed.

(** [parseLine] takes the quotes off the raw fields. *)
Lemma parseLine_rawFields (line : jsstring) :
  parseLine line = unquote <$> rawFields false line.
Proof.
  pose proof (parseLine_loop line [] [] 0 false ltac:(simpl; lia)) as H.
  simpl in H. unfold parseLine. rewrite H.
  by rewrite prependHead_nil by apply rawFields_nonempty.
Qed.









Lemma split_char_line (c : ascii) (l rest : jsstring) :
  c ∉ l →
  Js.split_go [c] 0 (l ++ c :: rest) = l :: Js.split_go [c] 0 rest.
Proof.
  induction l as [|x l IH]; intros Hnotin.
  - cbn [List.app Js.split_go Js.startsWith]. by rewrite Ascii.eqb_refl.
  - apply not_elem_of_cons in Hnotin as [Hx Hnotin].
    cbn [List.app Js.split_go Js.startsWith].
    replace (Ascii.eqb c x) with false
      by (symmetry; by apply Ascii.eqb_neq).
    cbn [andb]. by rewrite IH.
Qed.

Lemma split_char_last (c : ascii) (l : jsstring) :
  c ∉ l → Js.split_go [c] 0 l = [l].
Proof.
  induction l as [|x l IH]; intros Hnotin; [done|].
  apply not_elem_of_cons in Hnotin as [Hx Hnotin].
  cbn [Js.split_go Js.startsWith].
  replace (Ascii.eqb c x) with false by (symmetry; by apply Ascii.eqb_neq).
  cbn [andb]. by rewrite IH.
Qed.

(** Lines that hold no newline are what splitting their text at the
    newlines gives. *)
Lemma split_join_lines (c : ascii) (lines : list jsstring) :
  lines ≠ [] → Forall (λ l, c ∉ l) lines →
  Js.split (Js.join [c] lines) [c] = lines.
Proof.
  unfold Js.split.
  induction lines as [|l lines IH]; intros Hne Hall; [done|].
  apply Forall_cons in Hall as [Hl Hall].
  destruct lines as [|l2 lines].
  - by apply split_char_last.
  - rewrite join_cons_nonempty by done. cbn [List.app].
    rewrite split_char_line by done. by rewrite IH.
Qed.

Lemma elem_of_join (x : ascii) (sep : jsstring) (ls : list jsstring) :
  x ∈ Js.join sep ls → x ∈ sep ∨ ∃ l, l ∈ ls ∧ x ∈ l.
Proof.
  induction ls as [|l ls IH]; [by intros ?%elem_of_nil|].
  destruct ls as [|l2 ls].
  - simpl. intros Hx. right. exists l. split; [apply list_elem_of_here|done].
  - rewrite join_cons_nonempty by done.
    intros [Hx|[Hx|Hx]%elem_of_app]%elem_of_app.
    + right. exists l. split; [apply list_elem_of_here|done].
    + by left.
    + destruct (IH Hx) as [?|(l' & Hl' & Hxl')]; [by left|].
      right. exists l'. split; [by apply list_elem_of_further|done].
Qed.



Lemma filter_all {A} (P : A → Prop) `{∀ x, Decision (P x)} (l : list A) :
  Forall P l → filter P l = l.
Proof.
  induction 1 as [|x l Hx Hl IH]; [done|].
  rewrite filter_cons_True by done. by rewrite IH.
Qed.


Lemma consHead_elem x c (pieces : list jsstring) p :
  p ∈ Js.consHead c pieces → x ∈ p →
  x = c ∨ ∃ q, q ∈ pieces ∧ x ∈ q.
Proof.
  destruct pieces as [|q pieces]; simpl.
  - intros ->%list_elem_of_singleton [->|?%elem_of_nil]%elem_of_cons;
      [by left|done].
  - intros [->|Hp]%elem_of_cons Hx.
    + apply elem_of_cons in Hx as [->|Hx]; [by left|].
      right. exists q. split; [apply list_elem_of_here|done].
    + right. exists p. split; [by apply list_elem_of_further|done].
Qed.

(** *** The zipping of the code is the zipping of the specification *)



(** *** What is cut at a newline stays cut *)















(** *** No newline is kept in a field *)









(** [Forall] over a list that is written out. *)
Ltac forall_written :=
  cbn [concat List.app];
  repeat first [apply Forall_nil_2 | apply Forall_cons_2].



(** * Further properties of the code *)

(** ** The event reducer and the reading loop *)

Lemma foldl_applyEvent_tokens (events : list Event) (st : AppState) :
  st_totalTokens (foldl applyEvent st events)
  = (st_totalTokens st + usageTotal events)%Z.
Proof.
  revert st. induction events as [|e events IH]; intros st; simpl.
  - lia.
  - rewrite IH. destruct e; simpl; lia.
Qed.

Lemma session_is_fold parseEvent (chunks : list jsstring) :
  session (readStream parseEvent chunks)
  = foldl applyEvent resetState (parsedEvents parseEvent chunks).
Proof.
  unfold readStream, parsedEvents. rewrite readChunks_unfold.
  cbn [session buffer]. apply processLines_events.
Qed.

(** X1.  The token total is additive: after any sequence of events it is
    the earlier total plus the sum of the increments of the usage events,
    wherever the other events stand between them; at the end of a run it is
    the sum over the events that were de-framed and parsed. *)
Theorem total_tokens_is_sum_of_usage :
  ∀ (parseEvent : jsstring → option Event) (events : list Event)
    (st : AppState) (chunks : list jsstring),
    st_totalTokens (foldl applyEvent st events)
    = (st_totalTokens st + usageTotal events)%Z
    ∧ st_totalTokens (session (readStream parseEvent chunks))
      = usageTotal (parsedEvents parseEvent chunks).
Proof.
  intros parseEvent events st chunks. split.
  - apply foldl_applyEvent_tokens.
  - rewrite session_is_fold, foldl_applyEvent_tokens. simpl. lia.
Qed.

Lemma foldl_applyEvent_progress (events : list Event) (st : AppState) :
  st_progress (foldl applyEvent st events)
  = st_progress st ++ progressMessages events.
Proof.
  revert st. induction events as [|e events IH]; intros st.
  - simpl. by rewrite app_nil_r.
  - cbn [foldl]. rewrite IH. destruct e; simpl; try done.
    by rewrite <- app_assoc.
Qed.

(** X2.  The progress log only grows: after any sequence of events it is
    the earlier log followed by the messages of the progress events, in
    arrival order; no other event adds, removes or reorders a message. *)
Theorem progress_log_is_appended_in_order :
  ∀ (events : list Event) (st : AppState),
    st_progress (foldl applyEvent st events)
    = st_progress st ++ progressMessages events
    ∧ st_progress st `prefix_of` st_progress (foldl applyEvent st events).
Proof.
  intros events st. rewrite foldl_applyEvent_progress. split; [done|].
  by exists (progressMessages events).
Qed.

Lemma foldl_applyEvent_iterations (events : list Event) (st : AppState) :
  st_iterationResults (foldl applyEvent st events)
  = foldl recordIteration (st_iterationResults st)
          (iterationSnapshots events).
Proof.
  revert st. induction events as [|e events IH]; intros st; [done|].
  cbn [foldl]. rewrite IH. by destruct e.
Qed.

(** X3.  After any sequence of events applied to a state whose store is
    ascending, the store is ascending and holds the earlier snapshots
    together with one snapshot per iteration_complete event received,
    nothing else. *)
Theorem reducer_keeps_store_ascending :
  ∀ (events : list Event) (st : AppState),
    ascending (st_iterationResults st) →
    ascending (st_iterationResults (foldl applyEvent st events))
    ∧ st_iterationResults (foldl applyEvent st events)
      ≡ₚ st_iterationResults st ++ iterationSnapshots events.
Proof.
  intros events st Hasc. rewrite foldl_applyEvent_iterations. split.
  - by apply recordAll_from_ascending.
  - apply recordAll_from_perm.
Qed.

Lemma reducer_keeps_store_ascending_witness :
  ascending (st_iterationResults resetState)
  ∧ ascending
      (st_iterationResults
         (foldl applyEvent resetState
            [EvIterationComplete 2 (str "b"); EvUsage 5;
             EvIterationComplete 1 (str "a")])).
Proof.
  assert (ascending (st_iterationResults resetState)) as H
    by constructor.
  split; [exact H|].
  exact (proj1 (reducer_keeps_store_ascending
                  [EvIterationComplete 2 (str "b"); EvUsage 5;
                   EvIterationComplete 1 (str "a")] resetState H)).
Defined.

Lemma foldl_applyEvent_result (events : list Event) (st : AppState) :
  st_data (foldl applyEvent st events)
  = from_option Some (st_data st) (last (resultPayloads events))
  ∧ st_finalData (foldl applyEvent st events)
    = from_option Some (st_finalData st) (last (resultPayloads events)).
Proof.
  revert st. induction events as [|e events IH]; intros st; [done|].
  cbn [foldl]. destruct (IH (applyEvent st e)) as [-> ->].
  destruct e; try done.
  cbn [resultPayloads omap list_omap].
  fold (resultPayloads events).
  destruct (resultPayloads events) as [|d ds] eqn:Hres; [done|].
  rewrite last_cons_cons.
  destruct (last (d :: ds)) eqn:Hlast; [done|].
  by apply last_None in Hlast.
Qed.

(** X4.  The last result event wins: after any sequence of events the
    displayed data and the terminal result are both the payload of the last
    result event, and both are left as they were when no result event
    arrived; an error event or any other event never clears them. *)
Theorem last_result_event_wins :
  ∀ (events : list Event) (st : AppState),
    st_data (foldl applyEvent st events)
    = from_option Some (st_data st) (last (resultPayloads events))
    ∧ st_finalData (foldl applyEvent st events)
      = from_option Some (st_finalData st) (last (resultPayloads events))
    ∧ (resultPayloads events ≠ [] →
         st_data (foldl applyEvent st events)
         = st_finalData (foldl applyEvent st events)).
Proof.
  intros events st.
  destruct (foldl_applyEvent_result events st) as [Hd Hf].
  split; [done|]. split; [done|].
  intros Hne. rewrite Hd, Hf.
  destruct (resultPayloads events) as [|d ds] using rev_ind; [done|].
  by rewrite last_snoc.
Qed.

(** X5.  De-framing loses nothing: the records handed to the loop so far
    and the text kept in the buffer, joined again by the blank-line
    separator, are exactly the text received. *)
Theorem deframing_loses_no_text :
  ∀ chunks : list jsstring,
    Js.join [Js.NEWLINE; Js.NEWLINE]
            (framedRecords [] chunks ++ [bufferAfter [] chunks])
    = concat chunks.
Proof.
  intros chunks. rewrite framed_whole. unfold Js.split.
  rewrite split_go_join by (done || lia). apply drop_0.
Qed.

Lemma split_blank_record (r rest : jsstring) :
  Js.NEWLINE ∉ r →
  Js.split_go [Js.NEWLINE; Js.NEWLINE] 0
              (r ++ Js.NEWLINE :: Js.NEWLINE :: rest)
  = r :: Js.split_go [Js.NEWLINE; Js.NEWLINE] 0 rest.
Proof.
  induction r as [|c r IH]; intros Hnotin.
  - cbn [List.app Js.split_go Js.startsWith].
    rewrite Ascii.eqb_refl. reflexivity.
  - apply not_elem_of_cons in Hnotin as [Hc Hnotin].
    cbn [List.app Js.split_go Js.startsWith].
    replace (Ascii.eqb Js.NEWLINE c) with false
      by (symmetry; by apply Ascii.eqb_neq).
    cbn [andb]. by rewrite IH.
Qed.

Lemma split_blank_remainder (t : jsstring) :
  Js.NEWLINE ∉ t → Js.split_go [Js.NEWLINE; Js.NEWLINE] 0 t = [t].
Proof.
  induction t as [|c t IH]; intros Hnotin; [done|].
  apply not_elem_of_cons in Hnotin as [Hc Hnotin].
  cbn [Js.split_go Js.startsWith].
  replace (Ascii.eqb Js.NEWLINE c) with false
    by (symmetry; by apply Ascii.eqb_neq).
  cbn [andb]. by rewrite IH.
Qed.

Lemma split_terminated (records : list jsstring) (remainder : jsstring) :
  Forall (λ r, Js.NEWLINE ∉ r) records → Js.NEWLINE ∉ remainder →
  Js.split (terminated records remainder) [Js.NEWLINE; Js.NEWLINE]
  = records ++ [remainder].
Proof.
  intros Hrec Hrem. unfold Js.split, terminated.
  induction Hrec as [|r records Hr Hrec IH].
  - by apply split_blank_remainder.
  - cbn [fmap list_fmap concat]. rewrite <- !app_assoc.
    cbn [List.app]. rewrite split_blank_record by done.
    cbn [fmap] in IH. by rewrite IH.
Qed.

(** X6.  When the text received so far is a sequence of records, each
    followed by its blank line, and then a remainder (no newline inside a
    record or the remainder), then however the text was cut into chunks the
    loop has processed exactly these records, once each and in order, and
    the remainder sits in the buffer: a record whose blank line has not
    arrived is not applied to the state, not even when the stream ends. *)
Theorem terminated_records_are_processed_once :
  ∀ (parseEvent : jsstring → option Event) (chunks records : list jsstring)
    (remainder : jsstring),
    Forall (λ r, Js.NEWLINE ∉ r) records →
    Js.NEWLINE ∉ remainder →
    concat chunks = terminated records remainder →
    framedRecords [] chunks = records
    ∧ buffer (readStream parseEvent chunks) = remainder
    ∧ session (readStream parseEvent chunks)
      = foldl applyEvent resetState (omap (eventOfLine parseEvent) records).
Proof.
  intros parseEvent chunks records remainder Hrec Hrem Htext.
  pose proof (framed_whole chunks) as Hwhole.
  rewrite Htext, split_terminated in Hwhole by done.
  apply app_inj_tail in Hwhole as [Hrecords Hbuffer].
  split; [done|]. split.
  - unfold readStream. rewrite readChunks_unfold. by cbn [buffer].
  - rewrite session_is_fold. unfold parsedEvents. by rewrite Hrecords.
Qed.

Lemma terminated_records_are_processed_once_witness :
  framedRecords []
    [str "data: a" ++ [Js.NEWLINE]; [Js.NEWLINE] ++ str "data: b"]
  = [str "data: a"]
  ∧ buffer (readStream (λ s, Some (EvProgress s))
              [str "data: a" ++ [Js.NEWLINE]; [Js.NEWLINE] ++ str "data: b"])
    = str "data: b"
  ∧ st_progress
      (session (readStream (λ s, Some (EvProgress s))
                  [str "data: a" ++ [Js.NEWLINE];
                   [Js.NEWLINE] ++ str "data: b"]))
    = [str "a"].
Proof.
  assert (Forall (λ r, Js.NEWLINE ∉ r) [str "data: a"]) as H1.
  { forall_written. intros Hin. simpl in Hin. elem_cases. }
  assert (Js.NEWLINE ∉ str "data: b") as H2.
  { intros Hin. simpl in Hin. elem_cases. }
  destruct (terminated_records_are_processed_once
              (λ s, Some (EvProgress s))
              [str "data: a" ++ [Js.NEWLINE]; [Js.NEWLINE] ++ str "data: b"]
              [str "data: a"] (str "data: b") H1 H2 eq_refl)
    as (Hr & Hb & Hs).
  split; [exact Hr|]. split; [exact Hb|]. by rewrite Hs.
Defined.

(** ** The tabular decoder *)








Lemma unquote_no_quote (p : jsstring) : Js.DQUOTE ∉ p → unquote p = p.
Proof.
  intros Hq. unfold unquote. destruct p as [|c p]; [done|].
  apply not_elem_of_cons in Hq as [Hc _]. cbn [Js.startsWith].
  replace (Ascii.eqb Js.DQUOTE c) with false
    by (symmetry; by apply Ascii.eqb_neq).
  done.
Qed.

Lemma split_comma_pieces x (line p : jsstring) :
  p ∈ Js.split_go [Js.COMMA] 0 line → x ∈ p → x ∈ line.
Proof.
  revert p. induction line as [|c line IH]; intros p.
  - simpl. intros ->%list_elem_of_singleton. done.
  - cbn [Js.split_go Js.startsWith length Nat.sub].
    destruct (Ascii.eqb Js.COMMA c && true).
    + intros [->|Hp]%elem_of_cons Hx; [by apply elem_of_nil in Hx|].
      apply list_elem_of_further. by apply (IH p).
    + intros Hp Hx.
      destruct (consHead_elem x c _ p Hp Hx) as [->|(q & Hq & Hxq)].
      * apply list_elem_of_here.
      * apply list_elem_of_further. by apply (IH q).
Qed.

Lemma rawFields_no_quote (line : jsstring) :
  Js.DQUOTE ∉ line → rawFields false line = Js.split_go [Js.COMMA] 0 line.
Proof.
  induction line as [|c line IH]; intros Hq; [done|].
  apply not_elem_of_cons in Hq as [Hc Hq].
  cbn [rawFields Js.split_go Js.startsWith length Nat.sub].
  replace (Ascii.eqb c Js.DQUOTE) with false
    by (symmetry; apply Ascii.eqb_neq; congruence).
  rewrite (Ascii.eqb_sym Js.COMMA c). cbn [negb].
  destruct (Ascii.eqb c Js.COMMA); cbn [andb]; by rewrite IH.
Qed.

(** X10.  A line without any double quote is simply cut at its commas:
    every comma separates two fields, the fields are returned as they stand
    (not trimmed), and an empty line is one empty field. *)
Theorem parseLine_without_quotes_is_split :
  ∀ line : jsstring,
    Js.DQUOTE ∉ line → parseLine line = Js.split line [Js.COMMA].
Proof.
  intros line Hq. rewrite parseLine_rawFields, rawFields_no_quote by done.
  unfold Js.split.
  transitivity (id <$> Js.split_go [Js.COMMA] 0 line);
    [|apply list_fmap_id].
  apply Forall_fmap_ext_1. rewrite Forall_forall. intros p Hp.
  apply unquote_no_quote. intros Hin.
  apply Hq. by apply (split_comma_pieces _ line p).
Qed.

Lemma parseLine_without_quotes_is_split_witness :
  parseLine (str " a,,b ,") = [str " a"; []; str "b "; []].
Proof.
  rewrite (parseLine_without_quotes_is_split (str " a,,b ,")).
  - reflexivity.
  - intros Hin. simpl in Hin. elem_cases.
Defined.

Lemma join_lines_empty (c : ascii) (lines : list jsstring) :
  lines ≠ [] → Js.join [c] lines = [] → lines = [[]].
Proof.
  destruct lines as [|l [|l2 lines]]; [done| |].
  - simpl. by intros _ ->.
  - intros _. rewrite join_cons_nonempty by done.
    intros Heq. apply app_eq_nil in Heq as [_ Heq]. done.
Qed.

(** The decoder on a text given by its lines. *)
Lemma parseCSV_of_lines (lines : list jsstring) :
  lines ≠ [] → Forall (λ l, Js.NEWLINE ∉ l) lines →
  parseCSV (Js.join [Js.NEWLINE] lines)
  = tableOfLines (filter (λ l, Js.trim l ≠ []) lines).
Proof.
  intros Hne Hnl. unfold parseCSV.
  destruct (Js.join [Js.NEWLINE] lines) as [|c text] eqn:Htext.
  - apply join_lines_empty in Htext as ->; done.
  - rewrite <- Htext, split_join_lines by done.
    by destruct (filter _ lines).
Qed.

(** X11.  Blank lines do not count: a text and the same text with its
    blank lines (empty or white space only, anywhere, a trailing newline
    included) taken out decode to the same table, and a text of blank lines
    only decodes to the empty table. *)
Theorem blank_lines_are_ignored :
  ∀ lines : list jsstring,
    lines ≠ [] →
    Forall (λ l, Js.NEWLINE ∉ l) lines →
    parseCSV (Js.join [Js.NEWLINE] lines)
    = parseCSV (Js.join [Js.NEWLINE]
                  (filter (λ l, Js.trim l ≠ []) lines))
    ∧ (Forall (λ l, Js.trim l = []) lines →
         parseCSV (Js.join [Js.NEWLINE] lines) = emptyDataset).
Proof.
  intros lines Hne Hnl. rewrite parseCSV_of_lines by done. split.
  - destruct (filter (λ l, Js.trim l ≠ []) lines) as [|l kept] eqn:Hkept;
      [done|].
    assert (Forall (λ l, Js.trim l ≠ []) (l :: kept)) as Hall.
    { rewrite <- Hkept. apply Forall_forall. intros x Hx.
      by apply list_elem_of_filter in Hx as [Hx _]. }
    assert (Forall (λ l, Js.NEWLINE ∉ l) (l :: kept)) as Hnl'.
    { rewrite <- Hkept. apply Forall_forall. intros x Hx.
      apply list_elem_of_filter in Hx as [_ Hx].
      rewrite Forall_forall in Hnl. by apply Hnl. }
    rewrite parseCSV_of_lines by done. by rewrite filter_all.
  - intros Hblank.
    destruct (filter (λ l, Js.trim l ≠ []) lines) as [|l kept] eqn:Hkept;
      [done|].
    assert (l ∈ filter (λ l, Js.trim l ≠ []) lines) as Hl
      by (rewrite Hkept; apply list_elem_of_here).
    apply list_elem_of_filter in Hl as [Hl1 Hl2].
    rewrite Forall_forall in Hblank. by specialize (Hblank l Hl2).
Qed.

Lemma blank_lines_are_ignored_witness :
  parseCSV (Js.join [Js.NEWLINE]
              [str "h"; []; str "  "; str "1"; []])
  = parseCSV (Js.join [Js.NEWLINE] [str "h"; str "1"]).
Proof.
  destruct (blank_lines_are_ignored [str "h"; []; str "  "; str "1"; []])
    as [H _].
  - done.
  - forall_written; intros Hin; simpl in Hin; elem_cases.
  - rewrite H. reflexivity.
Defined.

(** ** Iteration selection and the store *)

(** X12.  Going back to the final view undoes a selection: with a terminal
    result present, selecting any iteration (recorded or not) and then the
    final view shows the terminal result again, with no iteration marked;
    the state is the one reached by selecting the final view directly. *)
Theorem final_view_restores_terminal_result :
  ∀ (sel : option Z) (st : AppState) (fd : MigrationData),
    st_finalData st = Some fd →
    st_data (handleIterationSelect None (handleIterationSelect sel st))
    = Some fd
    ∧ st_selectedIteration
        (handleIterationSelect None (handleIterationSelect sel st)) = None
    ∧ handleIterationSelect None (handleIterationSelect sel st)
      = handleIterationSelect None st.
Proof.
  intros sel st fd Hfd.
  assert (st_finalData (handleIterationSelect sel st) = Some fd) as Hkeep.
  { unfold handleIterationSelect. destruct sel as [k|].
    - destruct (findIteration k (st_iterationResults st)); rewrite ?Hfd; done.
    - by rewrite Hfd. }
  assert (handleIterationSelect None (handleIterationSelect sel st)
          = handleIterationSelect None st) as Heq.
  { unfold handleIterationSelect at 1 3. rewrite Hkeep, Hfd.
    unfold handleIterationSelect, withData.
    destruct sel as [k|].
    - destruct (findIteration k (st_iterationResults st)); rewrite ?Hfd; done.
    - by rewrite Hfd. }
  rewrite Heq. unfold handleIterationSelect. rewrite Hfd. done.
Qed.

Lemma final_view_restores_terminal_result_witness :
  st_data (handleIterationSelect None
             (handleIterationSelect (Some 2%Z) exampleState))
  = Some exampleFinal.
Proof.
  apply (final_view_restores_terminal_result (Some 2%Z) exampleState
           exampleFinal).
  reflexivity.
Defined.

(** X13.  Selecting never touches the log, the token total, the agent
    state, the store, the terminal result or the error.  Selecting an
    iteration number that is not in the store, or selecting while no
    terminal result exists, leaves the displayed data as it was: only the
    marked iteration changes. *)
Theorem selecting_unknown_iteration_keeps_data :
  ∀ (k : Z) (st : AppState),
    findIteration k (st_iterationResults st) = None
    ∨ st_finalData st = None →
    handleIterationSelect (Some k) st
    = mkAppState (st_progress st) (st_totalTokens st)
        (st_agentDetailedState st) (st_iterationResults st) (st_data st)
        (st_finalData st) (st_error st) (Some k)
    ∧ (∀ sel,
         st_progress (handleIterationSelect sel st) = st_progress st
         ∧ st_totalTokens (handleIterationSelect sel st) = st_totalTokens st
         ∧ st_agentDetailedState (handleIterationSelect sel st)
           = st_agentDetailedState st
         ∧ st_iterationResults (handleIterationSelect sel st)
           = st_iterationResults st
         ∧ st_finalData (handleIterationSelect sel st) = st_finalData st
         ∧ st_error (handleIterationSelect sel st) = st_error st).
Proof.
  intros k st Hmiss. split.
  - unfold handleIterationSelect, withData.
    destruct Hmiss as [-> | ->]; [done|].
    by destruct (findIteration k (st_iterationResults st)).
  - intros sel. unfold handleIterationSelect, withData.
    destruct sel as [k'|].
    + destruct (findIteration k' (st_iterationResults st)),
        (st_finalData st); done.
    + destruct (st_finalData st); done.
Qed.

Lemma selecting_unknown_iteration_keeps_data_witness :
  st_data (handleIterationSelect (Some 7%Z) exampleState)
  = st_data exampleState.
Proof.
  pose proof (selecting_unknown_iteration_keeps_data 7 exampleState
                (or_introl eq_refl)) as [H _].
  by rewrite H.
Defined.

Lemma NoDup_fmap_same_key {A B} (f : A → B) (l : list A) (a b : A) :
  NoDup (f <$> l) → a ∈ l → b ∈ l → f a = f b → a = b.
Proof.
  induction l as [|x l IH]; intros Hnd Ha Hb Hf;
    [by apply elem_of_nil in Ha|].
  cbn [fmap list_fmap] in Hnd. apply NoDup_cons in Hnd as [Hx Hnd].
  apply elem_of_cons in Ha as [->|Ha];
    apply elem_of_cons in Hb as [->|Hb]; try done.
  - exfalso. apply Hx. rewrite Hf. by apply list_elem_of_fmap_2.
  - exfalso. apply Hx. rewrite <- Hf. by apply list_elem_of_fmap_2.
  - by apply IH.
Qed.

(** Two ascending arrangements of the same snapshots, all with different
    numbers, are the same list. *)
Lemma ascending_unique (l1 l2 : list IterationResult) :
  ascending l1 → ascending l2 → l1 ≡ₚ l2 →
  NoDup (iteration <$> l1) → l1 = l2.
Proof.
  unfold ascending. revert l2.
  induction l1 as [|x l1 IH]; intros l2 Hs1 Hs2 Hperm Hnd.
  - by apply Permutation_nil_l in Hperm.
  - destruct l2 as [|y l2]; [by apply Permutation_nil_r in Hperm|].
    apply StronglySorted_inv in Hs1 as [Hs1 Hx].
    apply StronglySorted_inv in Hs2 as [Hs2 Hy].
    rewrite Forall_forall in Hx. rewrite Forall_forall in Hy.
    assert (y ∈ x :: l1) as Hyin
      by (rewrite Hperm; apply list_elem_of_here).
    assert (x ∈ y :: l2) as Hxin
      by (rewrite <- Hperm; apply list_elem_of_here).
    assert (iteration x = iteration y) as Hkey.
    { apply Z.le_antisymm.
      - apply elem_of_cons in Hyin as [->|Hyin]; [lia|by apply Hx].
      - apply elem_of_cons in Hxin as [->|Hxin]; [lia|by apply Hy]. }
    assert (x = y) as <-.
    { apply (NoDup_fmap_same_key iteration (x :: l1)); try done.
      apply list_elem_of_here. }
    f_equal. apply IH; try done.
    + by apply Permutation_cons_inv in Hperm.
    + cbn [fmap list_fmap] in Hnd. by apply NoDup_cons in Hnd as [_ Hnd].
Qed.

(** X14.  When the snapshots all carry different iteration numbers, the
    store does not depend on the order in which they arrive: two arrival
    orders of the same snapshots give the same store. *)
Theorem store_is_independent_of_arrival_order :
  ∀ rs rs' : list IterationResult,
    rs ≡ₚ rs' →
    NoDup (iteration <$> rs) →
    recordAll rs = recordAll rs'.
Proof.
  intros rs rs' Hperm Hnd. unfold recordAll.
  apply ascending_unique.
  - apply recordAll_from_ascending. constructor.
  - apply recordAll_from_ascending. constructor.
  - by rewrite !recordAll_from_perm.
  - rewrite recordAll_from_perm. done.
Qed.

Lemma store_is_independent_of_arrival_order_witness :
  recordAll [mkIterationResult 2 (str "b"); mkIterationResult 1 (str "a")]
  = recordAll [mkIterationResult 1 (str "a"); mkIterationResult 2 (str "b")].
Proof.
  apply store_is_independent_of_arrival_order.
  - apply Permutation_swap.
  - cbn. repeat constructor; intros Hin; elem_cases.
Defined.

(** ** Stage statuses *)

Lemma progressLog_noMarker (s : Stage) (logs : list jsstring) (st : Stages) :
  Forall (noMarker s) logs →
  statusOf (foldl progressLog st logs) s = statusOf st s.
Proof.
  intros Hall. revert st.
  induction Hall as [|log logs [Hstart Hdone] _ IH]; intros st; [done|].
  cbn [foldl]. rewrite IH, progressLog_status. by rewrite Hdone, Hstart.
Qed.

(** X15.  A stage is waiting exactly when no log seen so far carries one
    of its markers: a stage whose markers never appear stays waiting for
    the whole session, and the first marker takes it out of waiting for
    good. *)
Theorem stage_waits_until_first_marker :
  ∀ (s : Stage) (logs : list jsstring),
    statusOf (stagesOf logs) s = waiting ↔ Forall (noMarker s) logs.
Proof.
  intros s logs. induction logs as [|log logs IH] using rev_ind.
  - split; [intros _; apply Forall_nil_2|by destruct s].
  - rewrite stagesOf_snoc, progressLog_status, Forall_app, Forall_singleton.
    unfold noMarker at 2.
    destruct (doneMarker s log), (startMarker s log); try rewrite IH;
      split; try done; try (intros [_ [? ?]]; done).
    + by intros [? _].
Qed.

(** X16.  The status of a stage is set by the last log that carries one of
    its markers: completed when that log carries a completion marker,
    active when it carries a start marker only, whatever came before. *)
Theorem stage_status_is_set_by_last_marker :
  ∀ (s : Stage) (before after : list jsstring) (log : jsstring),
    startMarker s log = true ∨ doneMarker s log = true →
    Forall (noMarker s) after →
    statusOf (stagesOf (before ++ log :: after)) s
    = if doneMarker s log then completed else active.
Proof.
  intros s before after log Hmark Hafter.
  unfold stagesOf. rewrite foldl_app. cbn [foldl].
  rewrite progressLog_noMarker, progressLog_status by done.
  destruct (doneMarker s log); [done|].
  by destruct Hmark as [-> | ?].
Qed.

Lemma stage_status_is_set_by_last_marker_witness :
  statusOf (stagesOf ([str "Converted 3 files"]
                      ++ str "Converting documents" :: [str "idle"]))
           Converting = active.
Proof.
  apply (stage_status_is_set_by_last_marker Converting
           [str "Converted 3 files"] [str "idle"]
           (str "Converting documents")).
  - by left.
  - forall_written. by split.
Defined.

(** ** The word-sequence pattern *)

Lemma wordChar_is_plain (c : ascii) :
  Js.isWordChar c = true →
  Ascii.eqb c "\"%char = false ∧ Ascii.eqb c "["%char = false
  ∧ isSpecial c = false.
Proof.
  destruct c as [[] [] [] [] [] [] [] []]; vm_compute; intros H;
    try discriminate H; repeat split.
Qed.

Lemma splitNonWord_go_words (inRun : bool) (s : jsstring) :
  Forall (Forall (λ c, Js.isWordChar c = true)) (splitNonWord_go inRun s).
Proof.
  revert inRun. induction s as [|c s IH]; intros inRun; simpl.
  - repeat constructor.
  - destruct (Js.isWordChar c) eqn:Hc.
    + specialize (IH false).
      destruct (splitNonWord_go false s) as [|p ps]; simpl.
      * repeat constructor. done.
      * apply Forall_cons in IH as [Hp Hps].
        constructor; [by constructor|done].
    + destruct inRun; [apply IH|]. constructor; [constructor|apply IH].
Qed.

Lemma tokensOf_words (term : jsstring) :
  Forall (λ w, w ≠ [] ∧ Forall (λ c, Js.isWordChar c = true) w)
         (tokensOf term).
Proof.
  unfold tokensOf, splitNonWord. apply Forall_forall. intros w Hw.
  apply list_elem_of_filter in Hw as [Hlen Hw]. split.
  - intros ->. simpl in Hlen. lia.
  - pose proof (splitNonWord_go_words false term) as Hall.
    rewrite Forall_forall in Hall. by apply Hall.
Qed.

Lemma escapeRegExp_word (w : jsstring) :
  Forall (λ c, Js.isWordChar c = true) w → escapeRegExp w = w.
Proof.
  unfold escapeRegExp. induction 1 as [|c w Hc _ IH]; [done|].
  cbn [mbind list_bind]. destruct (wordChar_is_plain c Hc) as (_ & _ & ->).
  cbn [List.app]. f_equal. exact IH.
Qed.

Lemma compilePattern_word (w rest : jsstring) :
  Forall (λ c, Js.isWordChar c = true) w →
  compilePattern (w ++ rest)
  = (λ r, (litAtom true <$> w) ++ r) <$> compilePattern rest.
Proof.
  induction 1 as [|c w Hc _ IH].
  - simpl. by destruct (compilePattern rest).
  - destruct (wordChar_is_plain c Hc) as (H1 & H2 & H3).
    cbn [List.app compilePattern]. rewrite H1, H2, H3, IH.
    by destruct (compilePattern rest).
Qed.

Lemma compilePattern_junk (rest : jsstring) :
  compilePattern (str "[\W_]+" ++ rest)
  = (λ r, junkAtom :: r) <$> compilePattern rest.
Proof. reflexivity. Qed.

Lemma compilePattern_words (words : list jsstring) :
  Forall (λ w, w ≠ [] ∧ Forall (λ c, Js.isWordChar c = true) w) words →
  compilePattern (Js.join (str "[\W_]+") (map escapeRegExp words))
  = Some (wordsPattern words).
Proof.
  induction 1 as [|w words [_ Hw] Hall IH]; [done|].
  cbn [map]. rewrite escapeRegExp_word by done.
  destruct words as [|w2 words].
  - cbn [map Js.join wordsPattern].
    rewrite <- (app_nil_r w) at 1. rewrite compilePattern_word by done.
    simpl. by rewrite app_nil_r.
  - cbn [map]. rewrite join_cons_nonempty by done.
    rewrite compilePattern_word by done.
    rewrite compilePattern_junk. cbn [map] in IH. rewrite IH. done.
Qed.

(** What [getFlexibleRegex] returns, in terms of the tokens. *)
Lemma getFlexibleRegex_tokens (term : jsstring) :
  getFlexibleRegex term
  = if length term <? 2 then None
    else match tokensOf term with
         | [] => None
         | _ :: _ => Some (mkRegExp (wordsPattern (tokensOf term)) false)
         end.
Proof.
  unfold getFlexibleRegex. destruct (length term <? 2); [done|].
  pose proof (tokensOf_words term) as Hwords.
  fold (tokensOf term). destruct (tokensOf term) as [|w ws] eqn:Htok; [done|].
  unfold newRegExp_gi. by rewrite compilePattern_words.
Qed.

Lemma tokensOf_nil_go (inRun : bool) (s : jsstring) :
  filter (λ w : jsstring, 0 < length w) (splitNonWord_go inRun s) = []
  ↔ Forall (λ c, Js.isWordChar c = false) s.
Proof.
  revert inRun. induction s as [|c s IH]; intros inRun.
  - simpl. split; [constructor|done].
  - cbn [splitNonWord_go]. destruct (Js.isWordChar c) eqn:Hc.
    + split.
      * destruct (splitNonWord_go false s) as [|p ps]; simpl;
          rewrite filter_cons_True by (simpl; lia); done.
      * intros [Hc' _]%Forall_cons. congruence.
    + rewrite Forall_cons. destruct inRun.
      * rewrite IH. split; [by split|by intros [_ ?]].
      * rewrite filter_cons_False by (simpl; lia). rewrite IH.
        split; [by split|by intros [_ ?]].
Qed.

(** X17.  The word-sequence pattern is missing exactly when the phrase has
    fewer than 2 characters or holds no letter, digit or underscore.  In
    every other case the pattern is built, it is the tokens of the phrase
    joined by the junk class, and building it never fails: escaping does
    not change a token. *)
Theorem flexible_regex_is_built_from_tokens :
  ∀ term : jsstring,
    (getFlexibleRegex term = None ↔
       length term < 2 ∨ Forall (λ c, Js.isWordChar c = false) term)
    ∧ (∀ regex, getFlexibleRegex term = Some regex →
         regex = mkRegExp (wordsPattern (tokensOf term)) false
         ∧ tokensOf term ≠ [])
    ∧ Forall (λ w, escapeRegExp w = w) (tokensOf term).
Proof.
  intros term. rewrite getFlexibleRegex_tokens.
  pose proof (tokensOf_nil_go false term) as Hnil.
  fold (splitNonWord term) in Hnil. fold (tokensOf term) in Hnil.
  split; [|split].
  - destruct (Nat.ltb_spec (length term) 2) as [Hlt|Hge].
    + split; [by left|done].
    + destruct (tokensOf term) as [|w ws].
      * split; [intros _; right; by apply Hnil|done].
      * split; [done|]. intros [?|Hall]; [lia|by apply Hnil in Hall].
  - intros regex. destruct (length term <? 2); [done|].
    destruct (tokensOf term) as [|w ws]; [done|].
    by intros [= <-].
  - eapply Forall_impl; [apply tokensOf_words|].
    intros w [_ Hw]. by apply escapeRegExp_word.
Qed.

Lemma backtrack_complete cont (s : jsstring) lo j i :
  lo ≤ i ≤ j → is_Some (cont (drop i s)) →
  is_Some (backtrack cont s lo j).
Proof.
  intros Hi Hsome. induction j as [|j IH].
  - assert (i = 0) as -> by lia. cbn [backtrack].
    destruct (Nat.ltb_spec 0 lo); [lia|].
    destruct Hsome as [n Hn]. rewrite Hn. by eexists.
  - cbn [backtrack]. destruct (Nat.ltb_spec (S j) lo); [lia|].
    destruct (cont (drop (S j) s)) as [n|] eqn:Hc; [by eexists|].
    apply IH. destruct (decide (i = S j)) as [->|]; [|lia].
    rewrite Hc in Hsome. by destruct Hsome.
Qed.

Lemma runLength_prefix p (junk rest : jsstring) :
  Forall (λ c, p c = true) junk →
  length junk ≤ runLength p None (junk ++ rest).
Proof.
  induction 1 as [|c junk Hc _ IH]; simpl; [lia|].
  rewrite Hc. lia.
Qed.

(** The literals of a token take a text that differs from it in case
    only. *)
Lemma matchAtoms_token (w w' rest : jsstring) (ats : list Atom) :
  sameIgnoringCase w' w →
  matchAtoms ((litAtom true <$> w) ++ ats) false (w' ++ rest)
  = (λ n, length w + n) <$> matchAtoms ats false rest.
Proof.
  unfold sameIgnoringCase. revert w'.
  induction w as [|c w IH]; intros w' Hsame.
  - destruct w'; [|done]. simpl. by destruct (matchAtoms ats false rest).
  - destruct w' as [|c' w']; [done|]. injection Hsame as Hc Hsame.
    cbn [fmap list_fmap List.app]. rewrite matchAtoms_lit.
    cbn [accepts]. rewrite Hc, Ascii.eqb_refl.
    pose proof (IH w' Hsame) as IH'. cbn [fmap] in IH'. rewrite IH'.
    by destruct (matchAtoms ats false rest).
Qed.

(** The pattern of the tokens matches at the start of a text that shows
    them in order, and the match is not empty. *)
Lemma matchAtoms_tokenSequence (ws : list jsstring) (body rest : jsstring) :
  tokenSequence ws body →
  Forall (λ w, w ≠ []) ws →
  ∃ n, matchAtoms (wordsPattern ws) false (body ++ rest) = Some (S n).
Proof.
  intros Hseq. revert rest.
  induction Hseq as [w w' Hsame|w w' junk ws body Hsame Hjunk Hall Hws _ IH];
    intros rest Hne.
  - apply Forall_cons in Hne as [Hw _].
    cbn [wordsPattern]. rewrite <- (app_nil_r (litAtom true <$> w)).
    rewrite matchAtoms_token by done. cbn.
    destruct w as [|c w]; [done|]. simpl. by eexists.
  - apply Forall_cons in Hne as [Hw Hne].
    cbn [wordsPattern]. destruct ws as [|w2 ws]; [done|].
    rewrite <- !app_assoc. rewrite matchAtoms_token by done.
    assert (is_Some (matchAtoms (junkAtom :: wordsPattern (w2 :: ws)) false
                       (junk ++ body ++ rest))) as [m Hm].
    { cbn [matchAtoms junkAtom class atLeast atMost].
      apply (backtrack_complete _ _ _ _ (length junk)).
      - split; [destruct junk; [done|simpl; lia]|].
        by apply runLength_prefix.
      - rewrite drop_app_length. destruct (IH rest Hne) as [n Hn].
        rewrite Hn. by eexists. }
    rewrite Hm. destruct w as [|c w]; [done|]. simpl. by eexists.
Qed.

(** A match somewhere in the text makes the global search report a span. *)
Lemma matchAll_go_finds (re : RegExp) (pre suf : jsstring) (pos n : nat) :
  suf ≠ [] → matchHere re suf = Some (S n) →
  matchAll_go re 0 pos (pre ++ suf) ≠ [].
Proof.
  intros Hsuf Hm. revert pos.
  induction pre as [|c pre IH]; intros pos.
  - destruct suf as [|c suf]; [done|]. cbn [List.app matchAll_go].
    by rewrite Hm.
  - cbn [List.app matchAll_go].
    destruct (matchHere re (c :: pre ++ suf)) as [[|m]|]; [apply IH|done|apply IH].
Qed.

Lemma tokenSequence_body_nonempty (ws : list jsstring) (body : jsstring) :
  tokenSequence ws body → Forall (λ w, w ≠ []) ws → body ≠ [].
Proof.
  unfold sameIgnoringCase.
  destruct 1 as [w w' Hsame|w w' junk ws body Hsame];
    intros [Hw _]%Forall_cons; destruct w; try done; by destruct w'.
Qed.

(** X18.  When the document shows the tokens of the phrase in order, in
    any case, with some run of punctuation, white space or other
    characters that are not letters or digits between them, the
    word-sequence pattern matches it; so on a document that is not HTML
    the highlighting marks at least one span for such a phrase of two or
    more characters, whatever the exact match finds, and the fallback is
    not entered. *)
Theorem token_sequence_is_located :
  ∀ (mark : jsstring → jsstring → list span)
    (term before body after : jsstring),
    2 ≤ length term →
    tokenSequence (tokensOf term) body →
    isHtmlDoc (before ++ body ++ after) = false →
    (∃ regex, getFlexibleRegex term = Some regex
              ∧ markRegExpAll regex (before ++ body ++ after) ≠ [])
    ∧ (locate mark markRegExpAll term (before ++ body ++ after)).2 ≠ []
    ∧ LooseFallback ∉ (locate mark markRegExpAll term
                              (before ++ body ++ after)).1.
Proof.
  intros mark term before body after Hlen Hseq Hhtml.
  pose proof (tokensOf_words term) as Hwords.
  assert (Forall (λ w : jsstring, w ≠ []) (tokensOf term)) as Hne.
  { eapply Forall_impl; [exact Hwords|]. by intros w [? _]. }
  assert (tokensOf term ≠ []) as Htok by (by destruct Hseq).
  set (regex := mkRegExp (wordsPattern (tokensOf term)) false).
  assert (getFlexibleRegex term = Some regex) as Hregex.
  { rewrite getFlexibleRegex_tokens.
    destruct (Nat.ltb_spec (length term) 2); [lia|].
    by destruct (tokensOf term). }
  assert (markRegExpAll regex (before ++ body ++ after) ≠ []) as Hfound.
  { destruct (matchAtoms_tokenSequence _ body after Hseq Hne) as [n Hn].
    unfold markRegExpAll, matchAll.
    apply (matchAll_go_finds regex before (body ++ after) 0 n); [|done].
    pose proof (tokenSequence_body_nonempty _ _ Hseq Hne).
    by destruct body. }
  split; [by exists regex|].
  unfold locate. destruct term as [|c term]; [simpl in Hlen; lia|].
  rewrite Hhtml, Hregex.
  destruct (mark (c :: term) (before ++ body ++ after)) as [|sp total];
    cbn [length Nat.ltb Nat.leb].
  - destruct (markRegExpAll regex (before ++ body ++ after)) as [|sp2 l];
      [done|].
    cbn [length Nat.ltb Nat.leb snd fst]. split; [done|].
    intros Hin. elem_cases.
  - cbn [snd fst]. split; [done|]. intros Hin. elem_cases.
Qed.

Lemma token_sequence_is_located_witness :
  (locate markExact markRegExpAll (str "cost, average")
          (str "| Cost | AVERAGE |")).2 ≠ [].
Proof.
  apply (token_sequence_is_located markExact
           (str "cost, average") (str "| ") (str "Cost | AVERAGE")
           (str " |")).
  - simpl. lia.
  - apply (tokenSequence_more (str "cost") (str "Cost") (str " | ")
             [str "average"] (str "AVERAGE")); try done.
    + forall_written; reflexivity.
    + by apply tokenSequence_last.
  - reflexivity.
Defined.

(** ** Click handlers and the reference resolver *)

(** X19.  The shape check in the Target Source click handler adds nothing
    to the one in [handleViewDocument]: for every cell value the Target
    Source click does exactly what the Potential Matches click (and the
    clicks of the snapshot viewer) do, which only call
    [handleViewDocument]. *)
Theorem target_source_click_equals_potential_match_click :
  ∀ value : jsstring,
    targetSourceClick value = potentialMatchClick value.
Proof.
  intros [|c value]; [done|].
  unfold targetSourceClick, potentialMatchClick, handleViewDocument.
  destruct (resolve (c :: value)) as [filename context].
  by destruct (negb (regexTest extensionRegex filename)
               && (20 <? length filename)).
Qed.

Lemma trimStart_whiteSpace (w s : jsstring) :
  whiteSpaceOnly w → Js.trimStart (w ++ s) = Js.trimStart s.
Proof.
  induction 1 as [|c w Hc _ IH]; [done|]. simpl. by rewrite Hc.
Qed.

Lemma trimStart_head (s : jsstring) :
  (∀ c, head s = Some c → Js.isWhiteSpace c = false) → Js.trimStart s = s.
Proof.
  destruct s as [|c s]; [done|]. intros Hc. simpl.
  by rewrite (Hc c eq_refl).
Qed.

(** Trimming takes the white space around a tight text away, and nothing
    else. *)
Lemma trim_padded (w1 core w2 : jsstring) :
  whiteSpaceOnly w1 → whiteSpaceOnly w2 → tight core →
  Js.trim (w1 ++ core ++ w2) = core.
Proof.
  intros Hw1 Hw2 Htight. unfold Js.trim, Js.trimEnd.
  rewrite trimStart_whiteSpace by done.
  destruct core as [|c core].
  - simpl. rewrite <- (app_nil_r w2) at 1.
    rewrite trimStart_whiteSpace by done. done.
  - rewrite (trimStart_head ((c :: core) ++ w2)).
    2:{ intros c' [= <-]. apply Htight. by left. }
    rewrite reverse_app.
    rewrite trimStart_whiteSpace by (by apply Forall_reverse).
    rewrite trimStart_head; [apply reverse_involutive|].
    intros c' Hc'. apply Htight. right.
    by rewrite <- last_reverse, reverse_involutive in Hc'.
Qed.

Lemma whiteSpace_no_colon (w : jsstring) :
  whiteSpaceOnly w → Js.COLON ∉ w.
Proof.
  intros Hw Hin. unfold whiteSpaceOnly in Hw. rewrite Forall_forall in Hw.
  by specialize (Hw _ Hin).
Qed.

(** X20.  White space around the identifier and around the context does
    not matter: a value written as identifier, colon, context, with any
    white space before, between and after, resolves to the identifier and
    the context themselves; the context may itself hold colons, since the
    value is cut at the first one. *)
Theorem resolve_ignores_surrounding_white_space :
  ∀ (w1 identifier w2 w3 context w4 : jsstring),
    whiteSpaceOnly w1 → whiteSpaceOnly w2 →
    whiteSpaceOnly w3 → whiteSpaceOnly w4 →
    tight identifier → tight context →
    Js.COLON ∉ identifier →
    resolve (w1 ++ identifier ++ w2 ++ Js.COLON :: w3 ++ context ++ w4)
    = (identifier, context).
Proof.
  intros w1 identifier w2 w3 context w4 Hw1 Hw2 Hw3 Hw4 Hid Hctx Hcolon.
  assert (Js.COLON ∉ w1 ++ identifier ++ w2) as Hbefore.
  { rewrite !elem_of_app. intros [Hin|[Hin|Hin]]; [|done|].
    - by apply (whiteSpace_no_colon w1).
    - by apply (whiteSpace_no_colon w2). }
  unfold resolve.
  replace (w1 ++ identifier ++ w2 ++ Js.COLON :: w3 ++ context ++ w4)
    with ((w1 ++ identifier ++ w2) ++ Js.COLON :: w3 ++ context ++ w4)
    by (by rewrite <- !app_assoc).
  rewrite indexOf_char_first by done.
  rewrite substring_prefix, substringFrom_suffix.
  by rewrite !trim_padded.
Qed.

Lemma resolve_ignores_surrounding_white_space_witness :
  resolve (str " " ++ str "ITEM.md" ++ str "  " ++ Js.COLON
           :: str " " ++ str "IPROD: key" ++ [])
  = (str "ITEM.md", str "IPROD: key").
Proof.
  apply resolve_ignores_surrounding_white_space;
    try (unfold whiteSpaceOnly; forall_written; reflexivity).
  - intros c [[= <-]|[= <-]]; reflexivity.
  - intros c [[= <-]|[= <-]]; reflexivity.
  - intros Hin. simpl in Hin. elem_cases.
Defined.

(** ** The Potential Matches formatter *)

Lemma split_go_skip_over (sep p rest : jsstring) :
  Js.split_go sep (length p) (p ++ rest) = Js.split_go sep 0 rest.
Proof. induction p as [|c p IH]; [done|]. exact IH. Qed.

Lemma split_go_at_sep (a : ascii) (sep rest : jsstring) :
  Js.split_go (a :: sep) 0 ((a :: sep) ++ rest)
  = [] :: Js.split_go (a :: sep) 0 rest.
Proof.
  cbn [List.app Js.split_go].
  change (a :: sep ++ rest) with ((a :: sep) ++ rest).
  rewrite startsWith_app. cbn [length].
  replace (S (length sep) - 1) with (length sep) by lia.
  by rewrite split_go_skip_over.
Qed.

Lemma split_go_piece (a : ascii) (sep piece t : jsstring) :
  a ∉ piece →
  Js.split_go (a :: sep) 0 (piece ++ t)
  = prependHead piece (Js.split_go (a :: sep) 0 t).
Proof.
  induction piece as [|c piece IH]; intros Hnotin.
  - simpl. by rewrite prependHead_nil by apply split_go_nonempty.
  - apply not_elem_of_cons in Hnotin as [Hc Hnotin].
    cbn [List.app Js.split_go Js.startsWith].
    replace (Ascii.eqb a c) with false by (symmetry; by apply Ascii.eqb_neq).
    cbn [andb]. rewrite IH by done. apply consHead_prependHead.
Qed.

Lemma split_written_matches (d : ascii) (ms : list jsstring) :
  ms ≠ [] → Forall (λ m, Js.DQUOTE ∉ m) ms →
  Js.split_go [Js.DQUOTE; d; Js.DQUOTE] 0
    (Js.join [Js.DQUOTE; d; Js.DQUOTE] ms ++ [Js.DQUOTE])
  = closeLast ms.
Proof.
  induction ms as [|m ms IH]; intros Hne Hall; [done|].
  apply Forall_cons in Hall as [Hm Hall].
  destruct ms as [|m2 ms].
  - cbn [Js.join closeLast]. rewrite split_go_piece by done.
    by rewrite split_go_short by (simpl; lia).
  - rewrite join_cons_nonempty by done. rewrite <- !app_assoc.
    rewrite split_go_piece by done. rewrite split_go_at_sep.
    rewrite IH by done. cbn [prependHead closeLast].
    by rewrite app_nil_r.
Qed.

Lemma endsWith_no_quote (m : jsstring) :
  Js.DQUOTE ∉ m → Js.endsWith m [Js.DQUOTE] = false.
Proof.
  intros Hq. unfold Js.endsWith. rewrite reverse_singleton.
  destruct (reverse m) as [|c r] eqn:Hrev; [done|].
  cbn [Js.startsWith].
  replace (Ascii.eqb Js.DQUOTE c) with false; [done|].
  symmetry. apply Ascii.eqb_neq. intros <-. apply Hq.
  apply elem_of_reverse. rewrite Hrev. apply list_elem_of_here.
Qed.

Lemma stripQuotes_plain (m : jsstring) :
  Js.DQUOTE ∉ m → stripQuotes m = m.
Proof.
  intros Hq. destruct m as [|c m]; [done|].
  pose proof Hq as [Hc _]%not_elem_of_cons.
  cbn [stripQuotes].
  replace (Ascii.eqb c Js.DQUOTE) with false
    by (symmetry; apply Ascii.eqb_neq; congruence).
  unfold stripTrailingQuote. by rewrite endsWith_no_quote.
Qed.

Lemma stripTrailingQuote_closed (m : jsstring) :
  stripTrailingQuote (m ++ [Js.DQUOTE]) = m.
Proof.
  unfold stripTrailingQuote, Js.endsWith.
  rewrite reverse_snoc, reverse_singleton. cbn [Js.startsWith].
  rewrite Ascii.eqb_refl. cbn [andb]. apply removelast_last.
Qed.

Lemma stripQuotes_closed (m : jsstring) :
  Js.DQUOTE ∉ m → stripQuotes (m ++ [Js.DQUOTE]) = m.
Proof.
  intros Hq. destruct m as [|c m]; [done|].
  pose proof Hq as [Hc _]%not_elem_of_cons.
  cbn [List.app stripQuotes].
  replace (Ascii.eqb c Js.DQUOTE) with false
    by (symmetry; apply Ascii.eqb_neq; congruence).
  apply (stripTrailingQuote_closed (c :: m)).
Qed.

Lemma stripQuotes_opened (m : jsstring) :
  Js.DQUOTE ∉ m → stripQuotes (Js.DQUOTE :: m) = m.
Proof.
  intros Hq. cbn [stripQuotes]. rewrite Ascii.eqb_refl.
  destruct m as [|c m]; [done|].
  unfold stripTrailingQuote. by rewrite endsWith_no_quote.
Qed.

Lemma stripQuotes_closeLast (ms : list jsstring) :
  Forall (λ m, Js.DQUOTE ∉ m) ms → map stripQuotes (closeLast ms) = ms.
Proof.
  induction 1 as [|m ms Hm Hall IH]; [done|].
  destruct ms as [|m2 ms].
  - cbn [closeLast map]. by rewrite stripQuotes_closed.
  - cbn [closeLast map]. rewrite stripQuotes_plain by done.
    f_equal. exact IH.
Qed.

Lemma indexOf_absent (x : ascii) (s sep : jsstring) :
  x ∈ sep → x ∉ s → Js.indexOf s sep = None.
Proof.
  intros Hsep. induction s as [|c s IH]; intros Hs.
  - destruct sep; [by apply elem_of_nil in Hsep|done].
  - cbn [Js.indexOf].
    destruct (Js.startsWith (c :: s) sep) eqn:Hstart.
    + apply startsWith_prefix in Hstart as [k Hk]. exfalso. apply Hs.
      rewrite Hk. apply elem_of_app. by left.
    + apply not_elem_of_cons in Hs as [_ Hs]. by rewrite IH.
Qed.

Lemma includes_middle (a sep b : jsstring) :
  Js.includes (a ++ sep ++ b) sep = true.
Proof.
  unfold Js.includes. induction a as [|c a IH].
  - cbn [List.app].
    assert (Js.indexOf (sep ++ b) sep = Some 0) as ->; [|done].
    pose proof (startsWith_app sep b) as Hstart.
    destruct (sep ++ b); cbn [Js.indexOf]; by rewrite Hstart.
  - cbn [List.app Js.indexOf].
    destruct (Js.startsWith (c :: a ++ sep ++ b) sep); [done|].
    by destruct (Js.indexOf (a ++ sep ++ b) sep).
Qed.

(** The text between the brackets of a written list. *)
Lemma sliceInner_brackets (inner : jsstring) :
  sliceInner (str "[" ++ inner ++ str "]") = inner.
Proof.
  unfold sliceInner. cbn [str list_ascii_of_string List.app length drop].
  rewrite length_app. cbn [length].
  replace (S (length inner + 1) - 1 - 1) with (length inner) by lia.
  by rewrite drop_0, take_app_length.
Qed.

Lemma content_has_no (x d : ascii) (ms : list jsstring) :
  x ≠ Js.DQUOTE → x ≠ d → Forall (λ m, x ∉ m) ms →
  x ∉ [Js.DQUOTE] ++ Js.join [Js.DQUOTE; d; Js.DQUOTE] ms ++ [Js.DQUOTE].
Proof.
  intros Hq Hd Hall Hin. rewrite Forall_forall in Hall.
  apply elem_of_app in Hin as [Hin|Hin]; [elem_cases|].
  apply elem_of_app in Hin as [Hin|Hin]; [|elem_cases].
  apply elem_of_join in Hin as [Hin|(m & Hm & Hin)]; [elem_cases|].
  by apply (Hall m).
Qed.

Lemma split_go_opening (d : ascii) (t : jsstring) :
  Js.startsWith t [d; Js.DQUOTE] = false →
  Js.split_go [Js.DQUOTE; d; Js.DQUOTE] 0 (Js.DQUOTE :: t)
  = Js.consHead Js.DQUOTE (Js.split_go [Js.DQUOTE; d; Js.DQUOTE] 0 t).
Proof.
  intros Ht. cbn [Js.split_go].
  change (Js.startsWith (Js.DQUOTE :: t) [Js.DQUOTE; d; Js.DQUOTE])
    with (Ascii.eqb Js.DQUOTE Js.DQUOTE && Js.startsWith t [d; Js.DQUOTE]).
  by rewrite Ht, andb_false_r.
Qed.

(** X21.  A list written between square brackets, with every match
    between double quotes and the matches separated by a semicolon or by a
    comma, is read back as the matches themselves, when no match holds a
    double quote, a semicolon or a comma; white space around the brackets
    is ignored, and one button is drawn per match. *)
Theorem written_match_list_is_read_back :
  ∀ (delim : ascii) (ms : list jsstring) (w1 w2 : jsstring),
    delim = SEMICOLON ∨ delim = Js.COMMA →
    ms ≠ [] →
    Forall (λ m, (Js.DQUOTE ∉ m) ∧ (SEMICOLON ∉ m) ∧ (Js.COMMA ∉ m)) ms →
    whiteSpaceOnly w1 → whiteSpaceOnly w2 →
    potentialMatches (w1 ++ encodeMatches delim ms ++ w2) = ms.
Proof.
  intros delim ms w1 w2 Hdelim Hne Hall Hw1 Hw2.
  assert (Forall (λ m, Js.DQUOTE ∉ m) ms) as Hq
    by (eapply Forall_impl; [exact Hall|]; by intros m (? & _)).
  assert (Forall (λ m, SEMICOLON ∉ m) ms) as Hsemi
    by (eapply Forall_impl; [exact Hall|]; by intros m (_ & ? & _)).
  assert (Forall (λ m, Js.COMMA ∉ m) ms) as Hcomma
    by (eapply Forall_impl; [exact Hall|]; by intros m (_ & _ & ?)).
  set (sep := [Js.DQUOTE; delim; Js.DQUOTE]).
  set (content := [Js.DQUOTE] ++ Js.join sep ms ++ [Js.DQUOTE]).
  assert (encodeMatches delim ms = str "[" ++ content ++ str "]") as Henc.
  { unfold encodeMatches, content, sep. by rewrite <- !app_assoc. }
  assert (Js.trim (w1 ++ encodeMatches delim ms ++ w2)
          = str "[" ++ content ++ str "]") as Htrim.
  { rewrite Henc. apply trim_padded; try done.
    intros c [Hc|Hc].
    - injection Hc as <-. reflexivity.
    - rewrite (app_assoc (str "[") content) in Hc.
      change (str "]") with ["]"%char] in Hc.
      rewrite last_snoc in Hc. injection Hc as <-. reflexivity. }
  unfold potentialMatches.
  destruct (w1 ++ encodeMatches delim ms ++ w2) as [|c0 value] eqn:Hvalue.
  { apply (f_equal length) in Hvalue. rewrite Henc in Hvalue.
    rewrite !length_app in Hvalue. simpl in Hvalue. lia. }
  rewrite Htrim.
  assert (Js.startsWith (str "[" ++ content ++ str "]") (str "[") = true)
    as -> by reflexivity.
  assert (Js.endsWith (str "[" ++ content ++ str "]") (str "]") = true)
    as ->.
  { unfold Js.endsWith. rewrite (app_assoc (str "[") content).
    change (str "]") with ["]"%char]. by rewrite reverse_snoc. }
  cbn [andb]. rewrite sliceInner_brackets.
  assert ((0 <? length content) = true) as -> by reflexivity.
  assert (Js.split content sep = Js.consHead Js.DQUOTE (closeLast ms))
    as Hsplit.
  { unfold Js.split, content, sep.
    change ([Js.DQUOTE] ++ ?t) with (Js.DQUOTE :: t).
    rewrite split_go_opening; [by rewrite split_written_matches|].
    destruct ms as [|m ms']; [done|].
    apply Forall_cons in Hall as [(Hm1 & Hm2 & Hm3) _].
    assert (delim ∉ m) as Hdm by (by destruct Hdelim as [-> | ->]).
    assert (delim ≠ Js.DQUOTE) as Hdq
      by (by destruct Hdelim as [-> | ->]).
    destruct m as [|c m].
    - destruct ms' as [|m2 ms'']; cbn [Js.join List.app Js.startsWith];
        replace (Ascii.eqb delim Js.DQUOTE) with false
          by (symmetry; by apply Ascii.eqb_neq); done.
    - apply not_elem_of_cons in Hdm as [Hdc _].
      destruct ms' as [|m2 ms'']; cbn [Js.join List.app Js.startsWith];
        replace (Ascii.eqb delim c) with false
          by (symmetry; by apply Ascii.eqb_neq); done. }
  destruct ms as [|m1 [|m2 ms']]; [done| |].
  - (* one match: neither separator occurs *)
    assert (Js.includes content [Js.DQUOTE; SEMICOLON; Js.DQUOTE] = false)
      as ->.
    { unfold Js.includes.
      rewrite (indexOf_absent SEMICOLON); [done| |].
      - apply list_elem_of_further, list_elem_of_here.
      - unfold content. cbn [Js.join].
        intros Hin. apply elem_of_app in Hin as [Hin|Hin]; [elem_cases|].
        apply elem_of_app in Hin as [Hin|Hin]; [|elem_cases].
        apply Forall_cons in Hsemi as [Hs _]. done. }
    assert (Js.includes content [Js.DQUOTE; Js.COMMA; Js.DQUOTE] = false)
      as ->.
    { unfold Js.includes.
      rewrite (indexOf_absent Js.COMMA); [done| |].
      - apply list_elem_of_further, list_elem_of_here.
      - unfold content. cbn [Js.join].
        intros Hin. apply elem_of_app in Hin as [Hin|Hin]; [elem_cases|].
        apply elem_of_app in Hin as [Hin|Hin]; [|elem_cases].
        apply Forall_cons in Hcomma as [Hs _]. done. }
    unfold content. cbn [Js.join List.app].
    apply Forall_cons in Hq as [Hq1 _].
    cbn [stripQuotes]. rewrite Ascii.eqb_refl.
    destruct (m1 ++ [Js.DQUOTE]) as [|c r] eqn:Hm; [by destruct m1|].
    rewrite <- Hm. by rewrite stripTrailingQuote_closed.
  - (* two matches or more *)
    assert (map stripQuotes (Js.consHead Js.DQUOTE (closeLast (m1 :: m2 :: ms')))
            = m1 :: m2 :: ms') as Hstrip.
    { cbn [closeLast Js.consHead map].
      pose proof Hq as [Hq1 Hq2]%Forall_cons.
      rewrite stripQuotes_opened by done. f_equal.
      by apply (stripQuotes_closeLast (m2 :: ms')). }
    assert (Js.includes content sep = true) as Hsep.
    { unfold content. rewrite join_cons_nonempty by done.
      replace ([Js.DQUOTE] ++ (m1 ++ sep ++ Js.join sep (m2 :: ms'))
               ++ [Js.DQUOTE])
        with (([Js.DQUOTE] ++ m1) ++ sep
              ++ (Js.join sep (m2 :: ms') ++ [Js.DQUOTE]))
        by (by rewrite <- !app_assoc).
      apply includes_middle. }
    destruct Hdelim as [-> | ->].
    + fold sep. by rewrite Hsep, Hsplit.
    + assert (Js.includes content [Js.DQUOTE; SEMICOLON; Js.DQUOTE]
              = false) as ->.
      { unfold Js.includes.
        rewrite (indexOf_absent SEMICOLON); [done| |].
        - apply list_elem_of_further, list_elem_of_here.
        - by apply content_has_no. }
      fold sep. by rewrite Hsep, Hsplit.
Qed.

Lemma written_match_list_is_read_back_witness :
  potentialMatches
    (str " " ++ encodeMatches SEMICOLON
                  [str "ITEM.md: IPROD"; str "IIM.md: key"] ++ [])
  = [str "ITEM.md: IPROD"; str "IIM.md: key"].
Proof.
  apply written_match_list_is_read_back.
  - by left.
  - done.
  - forall_written; repeat split; intros Hin; simpl in Hin; elem_cases.
  - unfold whiteSpaceOnly. forall_written. reflexivity.
  - constructor.
Defined.

(** X22.  The label of a match button never has more than 30 characters:
    a match of at most 30 characters is shown whole, a longer one is shown
    as its first 27 characters and three dots. *)
Theorem display_label_is_at_most_30 :
  ∀ m : jsstring,
    length (displayLabel m) ≤ 30
    ∧ (length m ≤ 30 → displayLabel m = m)
    ∧ (30 < length m →
         displayLabel m = take 27 m ++ str "..."
         ∧ length (displayLabel m) = 30).
Proof.
  intros m. unfold displayLabel.
  destruct (Nat.ltb_spec 30 (length m)) as [Hlong|Hshort].
  - assert (Js.substring m 0 27 = take 27 m) as ->.
    { unfold Js.substring.
      replace (0 `min` length m) with 0 by lia.
      replace (27 `min` length m) with 27 by lia.
      by rewrite drop_0. }
    assert (length (take 27 m ++ str "...") = 30) as Hlen
      by (rewrite length_app, length_take;
          change (length (str "...")) with 3; lia).
    split; [lia|]. split; [lia|]. by intros _.
  - split; [lia|]. split; [done|lia].
Qed.

(** ** Upload batches *)

Lemma concat_slices {A} (files : list A) (k : nat) :
  concat (map (λ i, sliceArray files (i * BATCH_SIZE)
                      ((i * BATCH_SIZE + BATCH_SIZE) `min` length files))
              (seq 0 k))
  = take (k * BATCH_SIZE) files.
Proof.
  unfold BATCH_SIZE. induction k as [|k IH]; [done|].
  rewrite seq_S, map_app, concat_app, IH. cbn [map concat Nat.add].
  rewrite app_nil_r. unfold sliceArray.
  destruct (decide (length files ≤ k * 50)) as [Hle|Hgt].
  - rewrite drop_ge by done. rewrite take_nil, app_nil_r.
    rewrite !take_ge; [done|lia|done].
  - replace (take ((k * 50 + 50) `min` length files - k * 50)
                  (drop (k * 50) files))
      with (take 50 (drop (k * 50) files)).
    + rewrite take_take_drop. f_equal. lia.
    + destruct (decide (k * 50 + 50 ≤ length files)).
      * f_equal. lia.
      * rewrite !take_ge; [done|rewrite length_drop; lia
                           |rewrite length_drop; lia].
Qed.

Lemma totalBatches_covers (n : nat) :
  n ≤ totalBatches n * BATCH_SIZE
  ∧ (0 < n → (totalBatches n - 1) * BATCH_SIZE < n).
Proof.
  unfold totalBatches, BATCH_SIZE.
  pose proof (Nat.div_mod_eq (n + (50 - 1)) 50) as Hdiv.
  pose proof (Nat.mod_upper_bound (n + (50 - 1)) 50 ltac:(lia)) as Hmod.
  split; [lia|]. intros Hpos. lia.
Qed.

Lemma sentBatches_all_ok {A} (responseOk : list A → bool)
    (batches : list (list A)) :
  (∀ b, responseOk b = true) → sentBatches responseOk batches = batches.
Proof.
  intros Hok. induction batches as [|b bs IH]; [done|].
  simpl. by rewrite Hok, IH.
Qed.

Lemma sentBatches_prefix {A} (responseOk : list A → bool)
    (batches : list (list A)) :
  sentBatches responseOk batches `prefix_of` batches.
Proof.
  induction batches as [|b bs IH]; [done|]. simpl.
  destruct (responseOk b).
  - by apply prefix_cons.
  - by exists bs.
Qed.

(** X23.  The upload batches are the selected files cut in order into
    groups of 50: put one after the other they are exactly the files, none
    missing, repeated or moved; there are as many batches as the ceiling
    of the count over 50; every batch holds between 1 and 50 files and
    every batch but the last holds 50.  The batches that are sent are
    always the first ones, in order, and when every response is ok all of
    them are sent. *)
Theorem upload_batches_partition_the_files :
  ∀ (A : Type) (responseOk : list A → bool) (files : list A),
    concat (uploadBatches files) = files
    ∧ length (uploadBatches files) = totalBatches (length files)
    ∧ (∀ i b, uploadBatches files !! i = Some b →
         1 ≤ length b ≤ BATCH_SIZE
         ∧ (S i < length (uploadBatches files) → length b = BATCH_SIZE))
    ∧ sentBatches responseOk (uploadBatches files)
      `prefix_of` uploadBatches files
    ∧ ((∀ b, responseOk b = true) →
         concat (sentBatches responseOk (uploadBatches files)) = files).
Proof.
  intros A responseOk files.
  pose proof (totalBatches_covers (length files)) as [Hcover Hlast].
  assert (concat (uploadBatches files) = files) as Hconcat.
  { unfold uploadBatches. cbv zeta. rewrite concat_slices.
    by apply take_ge. }
  assert (length (uploadBatches files) = totalBatches (length files))
    as Hlen by (unfold uploadBatches; by rewrite length_map, length_seq).
  split; [done|]. split; [done|]. split.
  - intros i b Hb. rewrite Hlen.
    unfold uploadBatches in Hb. cbv zeta in Hb.
    rewrite list_lookup_fmap in Hb.
    destruct (seq 0 (totalBatches (length files)) !! i) as [j|] eqn:Hj;
      [|done].
    apply lookup_seq in Hj as [-> Hi]. simpl in Hb. injection Hb as <-.
    unfold sliceArray. rewrite length_take, length_drop.
    assert (0 < length files) as Hpos.
    { destruct (length files); [|lia]. unfold totalBatches in Hi.
      simpl in Hi. lia. }
    specialize (Hlast Hpos).
    assert (i * BATCH_SIZE < length files) as Hstart.
    { assert (i ≤ totalBatches (length files) - 1) as Hi' by lia.
      apply (Nat.mul_le_mono_r _ _ BATCH_SIZE) in Hi'. lia. }
    unfold BATCH_SIZE in *. split; [lia|].
    intros Hnext.
    assert (S i ≤ totalBatches (length files) - 1) as Hi' by lia.
    apply (Nat.mul_le_mono_r _ _ 50) in Hi'. lia.
  - split; [apply sentBatches_prefix|].
    intros Hok. by rewrite sentBatches_all_ok.
Qed.

(** ** Column visibility *)

(** X24.  After the visibility map is rebuilt for a data set every column
    of it is marked visible.  Toggling a column that is in the map flips
    it and nothing else, and toggling it again gives the map back.
    Toggling a key that is not in the map stores [true]: the column was
    shown and stays shown, and only the next toggle hides it. *)
Theorem toggle_column_flips_one_column :
  ∀ (d : MigrationData) (visibleCols : gmap jsstring bool)
    (key : jsstring),
    (∀ col, col ∈ columns (source d) →
       initialVisible d !! (str "source_" ++ col) = Some true)
    ∧ (∀ col, col ∈ columns (target d) →
         initialVisible d !! (str "target_" ++ col) = Some true)
    ∧ (∀ other, other ≠ key →
         toggleColumn key visibleCols !! other = visibleCols !! other)
    ∧ (is_Some (visibleCols !! key) →
         isVisible (toggleColumn key visibleCols) key
         = negb (isVisible visibleCols key)
         ∧ toggleColumn key (toggleColumn key visibleCols) = visibleCols)
    ∧ (visibleCols !! key = None →
         isVisible visibleCols key = true
         ∧ isVisible (toggleColumn key visibleCols) key = true
         ∧ isVisible (toggleColumn key (toggleColumn key visibleCols)) key
           = false).
Proof.
  intros d visibleCols key. unfold initialVisible, toggleColumn, isVisible.
  split; [|split; [|split; [|split]]].
  - intros col Hcol.
    rewrite (forEach_assign_other (λ c, str "target_" ++ c)) by done.
    apply (forEach_assign_lookup (λ c, str "source_" ++ c) (λ _, true)).
    + intros a b Heq. by simplify_eq/=.
    + by left.
  - intros col Hcol.
    apply (forEach_assign_lookup (λ c, str "target_" ++ c) (λ _, true)).
    + intros a b Heq. by simplify_eq/=.
    + by left.
  - intros other Hother. by rewrite lookup_insert_ne.
  - intros [b Hb]. rewrite !lookup_insert_eq, Hb. simpl. split.
    + by destruct b.
    + rewrite insert_insert_eq, negb_involutive. by apply insert_id.
  - intros Hnone. rewrite !lookup_insert_eq, Hnone. done.
Qed.

(** ** HTML documents and the table rows *)

Lemma lowerChar_whiteSpace (c : ascii) :
  Js.isWhiteSpace (Js.lowerChar c) = Js.isWhiteSpace c.
Proof. destruct c as [[] [] [] [] [] [] [] []]; reflexivity. Qed.

Lemma trimStart_keeps_suffix (a b : jsstring) (c : ascii) :
  head b = Some c → Js.isWhiteSpace c = false →
  ∃ a', Js.trimStart (a ++ b) = a' ++ b.
Proof.
  intros Hb Hc. induction a as [|x a IH].
  - exists []. simpl. apply trimStart_head. intros c' Hc'. congruence.
  - cbn [List.app Js.trimStart].
    destruct (Js.isWhiteSpace x); [exact IH|]. by exists (x :: a).
Qed.

(** Trimming the end does not reach into a text that ends in a character
    other than white space. *)
Lemma trimEnd_keeps_prefix (p s : jsstring) (c : ascii) :
  last p = Some c → Js.isWhiteSpace c = false →
  ∃ t, Js.trimEnd (p ++ s) = p ++ t.
Proof.
  intros Hp Hc. unfold Js.trimEnd. rewrite reverse_app.
  destruct (trimStart_keeps_suffix (reverse s) (reverse p) c) as [a' Ha'].
  - by rewrite <- last_reverse, reverse_involutive.
  - done.
  - exists (reverse a'). by rewrite Ha', reverse_app, reverse_involutive.
Qed.

(** X25.  A document whose text, after leading white space, begins with
    the doctype declaration or the html tag, in any case, counts as an HTML
    document, and on such a document the highlighting effect runs no
    strategy and marks nothing, whatever the phrase is. *)
Theorem html_documents_are_never_highlighted :
  ∀ (mark : jsstring → jsstring → list span)
    (markRegExp : RegExp → jsstring → list span)
    (highlight w tag rest : jsstring),
    whiteSpaceOnly w →
    Js.toLowerCase tag = str "<!doctype" ∨ Js.toLowerCase tag = str "<html" →
    isHtmlDoc (w ++ tag ++ rest) = true
    ∧ locate mark markRegExp highlight (w ++ tag ++ rest) = ([], []).
Proof.
  intros mark markRegExp highlight w tag rest Hw Htag.
  assert (∃ c0 c1, head tag = Some c0 ∧ Js.isWhiteSpace c0 = false
                   ∧ last tag = Some c1 ∧ Js.isWhiteSpace c1 = false)
    as (c0 & c1 & Hhead & Hc0 & Hlast & Hc1).
  { unfold Js.toLowerCase in Htag.
    assert (∀ i c, tag !! i = Some c →
              Js.isWhiteSpace c
              = Js.isWhiteSpace
                  (default c ((Js.lowerChar <$> tag) !! i))) as Hws.
    { intros i c Hi. rewrite list_lookup_fmap, Hi. simpl.
      by rewrite lowerChar_whiteSpace. }
    destruct Htag as [Htag|Htag].
    - destruct tag as [|t0 [|t1 [|t2 [|t3 [|t4 [|t5 [|t6 [|t7 [|t8 [|t9 ?]]]]]]]]]];
        try done.
      exists t0, t8. rewrite (Hws 0 t0 eq_refl), (Hws 8 t8 eq_refl), Htag.
      done.
    - destruct tag as [|t0 [|t1 [|t2 [|t3 [|t4 [|t5 ?]]]]]]; try done.
      exists t0, t4. rewrite (Hws 0 t0 eq_refl), (Hws 4 t4 eq_refl), Htag.
      done. }
  assert (isHtmlDoc (w ++ tag ++ rest) = true) as Hhtml.
  { unfold isHtmlDoc.
    destruct (w ++ tag ++ rest) as [|x content] eqn:Hcontent.
    { destruct tag; [done|]. by destruct w. }
    rewrite <- Hcontent. unfold Js.trim.
    rewrite trimStart_whiteSpace by done.
    rewrite (trimStart_head (tag ++ rest)).
    2:{ intros c Hc. destruct tag; [done|]. simpl in *. congruence. }
    destruct (trimEnd_keeps_prefix tag rest c1 Hlast Hc1) as [t ->].
    unfold Js.toLowerCase in *. rewrite fmap_app.
    destruct Htag as [-> | ->].
    - by rewrite startsWith_app.
    - rewrite startsWith_app. apply orb_true_r. }
  split; [done|]. unfold locate. rewrite Hhtml. by destruct highlight.
Qed.

Lemma html_documents_are_never_highlighted_witness :
  locate markExact markRegExpAll (str "body")
         (str "  " ++ str "<HTML" ++ str "><body>text</body></html>")
  = ([], []).
Proof.
  apply (html_documents_are_never_highlighted markExact markRegExpAll
           (str "body") (str "  ") (str "<HTML")
           (str "><body>text</body></html>")).
  - unfold whiteSpaceOnly. forall_written; reflexivity.
  - by right.
Defined.

(** X26.  The table has one row per source row, so target rows beyond
    the last source row never change it.  Where the target has no row at
    the position of a source row the target cells are read from the empty
    object: such a cell is undefined, unless the column bears the name of a
    member that every object inherits, and then the cell is that member. *)
Theorem table_rows_follow_the_source :
  ∀ (src : TabularDataset) (cols : list jsstring)
    (rows extra : list (gmap jsstring jsstring)),
    let d := mkMigrationData src (mkDataset cols rows) in
    length (buildRows d) = length (data src)
    ∧ (length (data src) ≤ length rows →
         buildRows (mkMigrationData src (mkDataset cols (rows ++ extra)))
         = buildRows d)
    ∧ (∀ i obj col,
         buildRows d !! i = Some obj → length rows ≤ i → col ∈ cols →
         obj !! (str "target_" ++ col)
         = Some (if bool_decide (col ∈ objectPrototypeMembers)
                 then Inherited col else Undefined)).
Proof.
  intros src cols rows extra d. unfold buildRows, d.
  cbn [source target data].
  split; [by rewrite length_imap|]. split.
  - intros Hlen. apply list_eq. intros i. rewrite !list_lookup_imap.
    destruct (data src !! i) as [srow|] eqn:Hrow; [|done].
    cbn [fmap option_fmap option_map]. f_equal.
    apply lookup_lt_Some in Hrow.
    unfold buildRow. cbn [source target data columns].
    by rewrite lookup_app_l by lia.
  - intros i obj col Hobj Hshort Hcol.
    rewrite list_lookup_imap in Hobj.
    destruct (data src !! i) as [srow|]; [|done].
    injection Hobj as <-.
    destruct (buildRow_cells (mkMigrationData src (mkDataset cols rows))
                i srow) as [_ Htarget].
    rewrite (Htarget col Hcol). cbn [target data].
    rewrite (lookup_ge_None_2 rows i Hshort). cbn [default].
    unfold getProperty. by rewrite lookup_empty.
Qed.
